(** * loggregator-agent: egress pipeline

  A shallow embedding of the v2 egress path of the agent:
  - [pkg/egress/v2/transponder.go]  (module [egress])
  - the sender fetcher of [pkg/clientpool/v2]  (module [clientpoolv2])
  - the v2 application wiring of the agent  (module [app])

  Go maps are finite maps ([gmap]); Go pointers are locations into an
  explicit store; interfaces are type classes; calls that leave the
  process (the transport, the health registrar, the random source) are
  threaded through explicit state. *)

From Stdlib Require Import ZArith.
From stdpp Require Import gmap strings list fin_maps pretty.

Local Open Scope Z_scope.
Local Open Scope string_scope.
Local Open Scope list_scope.

(** ** Go basics *)

(** Go's [error] interface.  Two dynamic kinds matter to this code:
  errors that carry a gRPC status, and plain errors such as the ones
  built by [fmt.Errorf]. *)
Module codes.
Inductive Code :=
| OK | Canceled | Unknown | InvalidArgument | DeadlineExceeded | NotFound
| AlreadyExists | PermissionDenied | ResourceExhausted | FailedPrecondition
| Aborted | OutOfRange | Unimplemented | Internal | Unavailable | DataLoss
| Unauthenticated.

#[global] Instance Code_eq_dec : EqDecision Code.
Proof. solve_decision. Defined.

Definition String (c : Code) : string :=
  match c with
  | OK => "OK" | Canceled => "Canceled" | Unknown => "Unknown"
  | InvalidArgument => "InvalidArgument"
  | DeadlineExceeded => "DeadlineExceeded" | NotFound => "NotFound"
  | AlreadyExists => "AlreadyExists"
  | PermissionDenied => "PermissionDenied"
  | ResourceExhausted => "ResourceExhausted"
  | FailedPrecondition => "FailedPrecondition" | Aborted => "Aborted"
  | OutOfRange => "OutOfRange" | Unimplemented => "Unimplemented"
  | Internal => "Internal" | Unavailable => "Unavailable"
  | DataLoss => "DataLoss" | Unauthenticated => "Unauthenticated"
  end.
End codes.

Inductive error :=
| StatusError (c : codes.Code) (desc : string)
| ErrorString (s : string).

(** [err.Error()] *)
Definition Error (e : error) : string :=
match e with
| StatusError c desc =>
    "rpc error: code = " +:+ codes.String c +:+ " desc = " +:+ desc
| ErrorString s => s
end.

Module time.
(** [time.Duration] counts nanoseconds. *)
Definition Duration := Z.
Definition Nanosecond : Duration := 1.
Definition Microsecond : Duration := 1000 * Nanosecond.
Definition Millisecond : Duration := 1000 * Microsecond.
Definition Second : Duration := 1000 * Millisecond.
End time.

(** [uint64] arithmetic wraps. *)
Definition uint64 (z : Z) : Z := z mod 2 ^ 64.

(** ** Envelopes *)

Module loggregator_v2.

(** The oneof of a tag [Value]. *)
Inductive Value :=
| Value_Text (Text : string)
| Value_Integer (Integer : Z)
| Value_Decimal (bits : Z).

(** The payload oneof of an envelope. *)
Inductive Message :=
| Envelope_Log (payload : string) (type : Z)
| Envelope_Counter (name : string) (delta total : Z)
| Envelope_Gauge (metrics : gmap string Z)
| Envelope_Timer (name : string) (start stop : Z)
| Envelope_Event (title body : string).

(** A map of deprecated tags is a Go map, that is a reference: the
    envelope holds the reference, the store holds the contents.  [None]
    is the nil map.  [Tags] is only ever read by this code, so it is
    kept by value (ranging over a nil map visits nothing, like the
    empty map). *)
Definition mapref := positive.

Record Envelope := {
  Timestamp : Z;
  SourceId : string;
  InstanceId : string;
  DeprecatedTags : option mapref;
  Tags : gmap string string;
  Message_ : option Message
}.

Definition GetTags (e : Envelope) : gmap string string := Tags e.

Definition with_DeprecatedTags (r : option mapref) (e : Envelope) : Envelope :=
  {| Timestamp := Timestamp e; SourceId := SourceId e;
     InstanceId := InstanceId e; DeprecatedTags := r;
     Tags := Tags e; Message_ := Message_ e |}.

End loggregator_v2.

(** ** The store

  A pointer to an envelope is a location; a location without a cell
  is the nil pointer.  Deprecated-tag maps live in their own table so
  that two envelopes may share one map. *)

Definition loc := positive.

Record Store := {
envs : gmap loc loggregator_v2.Envelope;
tagmaps : gmap loggregator_v2.mapref (gmap string loggregator_v2.Value)
}.

(** [make] of a deprecated-tag map: a fresh reference to an empty map. *)
Definition make_map (st : Store) : loggregator_v2.mapref * Store :=
let r := fresh (dom (tagmaps st)) in
(r, {| envs := envs st; tagmaps := <[r := ∅]> (tagmaps st) |}).

Definition set_env (l : loc) (e : loggregator_v2.Envelope) (st : Store) : Store :=
{| envs := <[l := e]> (envs st); tagmaps := tagmaps st |}.

Definition set_tagmap (r : loggregator_v2.mapref)
  (m : gmap string loggregator_v2.Value) (st : Store) : Store :=
{| envs := envs st; tagmaps := <[r := m]> (tagmaps st) |}.

(** ** pulseemitter counters (external): a counter accumulates a [uint64]
  delta between emissions. *)
Module pulseemitter.
Record CounterMetric := {
  name : string;
  version : Z * Z;
  metric_tags : gmap string string;
  delta : Z
}.

Inductive MetricOption :=
| WithVersion (major minor : Z)
| WithTags (tags : gmap string string).

Definition apply_option (o : MetricOption) (m : CounterMetric) : CounterMetric :=
  match o with
  | WithVersion major minor =>
      {| name := name m; version := (major, minor);
         metric_tags := metric_tags m; delta := delta m |}
  | WithTags tags =>
      {| name := name m; version := version m;
         metric_tags := tags ∪ metric_tags m; delta := delta m |}
  end.

Definition NewCounterMetric (n : string) (opts : list MetricOption) : CounterMetric :=
  foldl (fun m o => apply_option o m)
    {| name := n; version := (0, 0); metric_tags := ∅; delta := 0 |} opts.

Definition Increment (c : Z) (m : CounterMetric) : CounterMetric :=
  {| name := name m; version := version m; metric_tags := metric_tags m;
     delta := uint64 (delta m + c) |}.
End pulseemitter.

(** ** pkg/egress/v2/transponder.go *)

Module egress.
Import loggregator_v2.

(** The [Nexter] interface: [TryNext] returns an envelope pointer and
    an [ok] flag; [None] is [ok = false]. *)
Class Nexter (N : Type) := TryNext : N -> option loc * N.

(** The batcher of [pkg/plumbing/batching] is not part of the sources at
    hand; it is taken as a parameter.  [X] is everything its writer
    callback may change (the transponder and the store).  Both methods
    receive that callback and may observe the events so far (the time
    already slept); [None] is a panic of the callback. *)
Class Batcher (B X E : Type) := {
  NewV2EnvelopeBatcher : Z -> time.Duration -> B;
  batcher_Write :
    (list loc -> X -> option X) -> B -> loc -> list E -> X -> option (B * X);
  batcher_Flush :
    (list loc -> X -> option X) -> B -> list E -> X -> option (B * X)
}.

(** The [Writer] interface: [Write] receives the slice of envelope
    pointers, may touch the store, and returns an error or nil. *)
Class Writer (W : Type) := Write : W -> list loc -> Store -> option error * Store * W.

Record Transponder (N W : Type) := {
  nexter : N;
  writer : W;
  tags : gmap string string;
  batchSize : Z;
  batchInterval : time.Duration;
  droppedMetric : pulseemitter.CounterMetric;
  egressMetric : pulseemitter.CounterMetric
}.
Arguments nexter {N W} _.
Arguments writer {N W} _.
Arguments tags {N W} _.
Arguments batchSize {N W} _.
Arguments batchInterval {N W} _.
Arguments droppedMetric {N W} _.
Arguments egressMetric {N W} _.

(** The metric client is the one of [pulseemitter]: it makes the two
    counters from their names and options. *)
Definition NewTransponder {N W} (n : N) (w : W) (tags : gmap string string)
    (batchSize : Z) (batchInterval : time.Duration) : Transponder N W :=
  let droppedMetric :=
    pulseemitter.NewCounterMetric "dropped"
      [pulseemitter.WithVersion 2 0;
       pulseemitter.WithTags {[ "direction" := "egress" ]}] in
  let egressMetric :=
    pulseemitter.NewCounterMetric "egress" [pulseemitter.WithVersion 2 0] in
  {| nexter := n; writer := w; tags := tags;
     droppedMetric := droppedMetric; egressMetric := egressMetric;
     batchSize := batchSize; batchInterval := batchInterval |}.

(** *** addTags *)

(** [for k, v := range e.GetTags() { e.DeprecatedTags[k] = &Value{Text: v} }],
    for one visiting order of the entries. *)
Definition move_tags (entries : list (string * string))
    (m : gmap string Value) : gmap string Value :=
  foldl (fun m kv => <[kv.1 := Value_Text kv.2]> m) m entries.

(** [for k, v := range t.tags { if _, ok := e.DeprecatedTags[k]; !ok { ... } }] *)
Definition fill_tags (entries : list (string * string))
    (m : gmap string Value) : gmap string Value :=
  foldl (fun m kv =>
           match m !! kv.1 with
           | Some _ => m
           | None => <[kv.1 := Value_Text kv.2]> m
           end) m entries.

(** The body of [addTags] for given visiting orders of the two maps
    (Go leaves the order of [range] over a map unspecified).  [None] is
    a run-time panic: a nil envelope pointer (or, in a store that is not
    well formed, a map reference without contents). *)
Definition addTags_in_order (o1 o2 : list (string * string))
    (l : loc) (st : Store) : option Store :=
  e ← envs st !! l;
  let '(r, st) :=
    match DeprecatedTags e with
    | Some r => (r, st)
    | None =>
        let '(r, st) := make_map st in
        (r, set_env l (with_DeprecatedTags (Some r) e) st)
    end in
  m ← tagmaps st !! r;
  let m := move_tags o1 m in
  let m := fill_tags o2 m in
  Some (set_tagmap r m st).

Definition addTags {N W} (t : Transponder N W) (l : loc) (st : Store) : option Store :=
  e ← envs st !! l;
  addTags_in_order (map_to_list (GetTags e)) (map_to_list (tags t)) l st.

(** *** write *)

(** [for _, e := range batch { t.addTags(e) }] *)
Fixpoint addTags_all {N W} (t : Transponder N W) (batch : list loc)
    (st : Store) : option Store :=
  match batch with
  | [] => Some st
  | e :: batch => st ← addTags t e st; addTags_all t batch st
  end.

Definition write {N W} `{Writer W} (t : Transponder N W) (batch : list loc)
    (st : Store) : option (Transponder N W * Store) :=
  st ← addTags_all t batch st;
  let '(err, st, w) := Write (writer t) batch st in
  match err with
  | Some _ =>
      Some ({| nexter := nexter t; writer := w; tags := tags t;
               batchSize := batchSize t; batchInterval := batchInterval t;
               droppedMetric :=
                 pulseemitter.Increment (uint64 (Z.of_nat (length batch)))
                   (droppedMetric t);
               egressMetric := egressMetric t |}, st)
  | None =>
      Some ({| nexter := nexter t; writer := w; tags := tags t;
               batchSize := batchSize t; batchInterval := batchInterval t;
               droppedMetric := droppedMetric t;
               egressMetric :=
                 pulseemitter.Increment (uint64 (Z.of_nat (length batch)))
                   (egressMetric t) |}, st)
  end.

(** *** Start *)

(** What the consumer loop does to its surroundings. *)
Inductive Event :=
| EvFlush
| EvSleep (d : time.Duration)
| EvBatcherWrite (envelope : loc).

(** The events of a run of polls: an empty poll leaves a flush followed
    by the sleep, a poll that yields an envelope leaves the batcher's
    write. *)
Inductive poll_trace : list Event -> Prop :=
| poll_none : poll_trace []
| poll_empty evs :
    poll_trace evs ->
    poll_trace (EvFlush :: EvSleep (100 * time.Millisecond) :: evs)
| poll_envelope envelope evs :
    poll_trace evs -> poll_trace (EvBatcherWrite envelope :: evs).

Record Loop (N W B : Type) := {
  tx : Transponder N W;
  b : B;
  heap : Store;
  events : list Event
}.
Arguments tx {N W B} _.
Arguments b {N W B} _.
Arguments heap {N W B} _.
Arguments events {N W B} _.

Definition with_nexter {N W} (n : N) (t : Transponder N W) : Transponder N W :=
  {| nexter := n; writer := writer t; tags := tags t;
     batchSize := batchSize t; batchInterval := batchInterval t;
     droppedMetric := droppedMetric t; egressMetric := egressMetric t |}.

(** [batching.V2EnvelopeWriterFunc(t.write)] *)
Definition writer_func {N W} `{Writer W} (batch : list loc)
    (x : Transponder N W * Store) : option (Transponder N W * Store) :=
  write x.1 batch x.2.

Section Start.
Context {N W B : Type} `{Nexter N} `{Writer W}
  `{Batcher B (Transponder N W * Store) Event}.

(** The state in which the [for] loop is entered. *)
Definition Start_init (t : Transponder N W) (st : Store) : Loop N W B :=
  {| tx := t; b := NewV2EnvelopeBatcher (batchSize t) (batchInterval t);
     heap := st; events := [] |}.

(** One iteration of the [for] loop. *)
Definition Start_iteration (s : Loop N W B) : option (Loop N W B) :=
  let '(envelope, n) := TryNext (nexter (tx s)) in
  let t := with_nexter n (tx s) in
  match envelope with
  | None =>
      '(b', (t, st)) ← batcher_Flush writer_func (b s) (events s) (t, heap s);
      let evs := events s ++ [EvFlush] in
      let evs := evs ++ [EvSleep (100 * time.Millisecond)] in
      Some {| tx := t; b := b'; heap := st; events := evs |}
  | Some envelope =>
      '(b', (t, st)) ←
        batcher_Write writer_func (b s) envelope (events s) (t, heap s);
      Some {| tx := t; b := b'; heap := st;
              events := events s ++ [EvBatcherWrite envelope] |}
  end.

(** The loop never exits; [Start_iterations k] is its state after [k]
    iterations. *)
Fixpoint Start_iterations (k : nat) (s : Loop N W B) : option (Loop N W B) :=
  match k with
  | O => Some s
  | S k => s ← Start_iteration s; Start_iterations k s
  end.

Definition Start (k : nat) (t : Transponder N W) (st : Store) : option (Loop N W B) :=
  Start_iterations k (Start_init t st).
End Start.

End egress.

(** ** gRPC (external) *)

Module grpc.

Inductive TransportCredentials := TLS (config : string).

Record ClientParameters := {
  Time : time.Duration;
  Timeout : time.Duration;
  PermitWithoutStream : bool
}.

Record StatsHandler := {
  average_gauge : string;
  average_unit : string;
  average_every : time.Duration
}.

Inductive DialOption :=
| WithTransportCredentials (creds : TransportCredentials)
| WithStatsHandler (h : StatsHandler)
| WithKeepaliveParams (kp : ClientParameters).

(** A [ClientConn] is the connection made by the [conn_id]-th call on
    the transport. *)
Record ClientConn := { conn_id : nat; target : string }.

(** [status.FromError]: a nil error is status [OK]; an error carrying a
    status yields it; any other error yields [Unknown] and [ok = false]. *)
Definition status_FromError (err : option error) : codes.Code * bool :=
  match err with
  | None => (codes.OK, true)
  | Some (StatusError c _) => (c, true)
  | Some (ErrorString _) => (codes.Unknown, false)
  end.

End grpc.

(** ** pkg/clientpool/v2: the sender fetcher *)

Module clientpoolv2.

(** [type HealthRegistrar interface { Inc(name string); Dec(name string) }] *)
Class HealthRegistrar (H : Type) := {
  Inc : string -> H -> H;
  Dec : string -> H -> H
}.

(** The two generated clients of the batch-send call: the current one
    ([loggregator_v2.NewIngressClient]) and the deprecated one
    ([plumbing.NewDopplerIngressClient]). *)
Inductive Api := Ingress | DopplerIngress.

#[global] Instance Api_eq_dec : EqDecision Api.
Proof. solve_decision. Defined.

(** A batch-sender stream: which client opened it, on which connection,
    and the index of the opening call on the transport. *)
Record BatchSenderClient := {
  api : Api;
  conn : grpc.ClientConn;
  stream_id : nat
}.

(** Calls that reach the transport. *)
Inductive Call :=
| CallDial (addr : string) (opts : list grpc.DialOption)
| CallBatchSender (a : Api) (c : grpc.ClientConn)
| CallSend (s : BatchSenderClient) (batch : list loc)
| CallCloseAndRecv (s : BatchSenderClient)
| CallConnClose (c : grpc.ClientConn).

(** The network and the remote side: the error (or nil) a call returns,
    given all earlier calls. *)
Definition Transport := list Call -> Call -> option error.

Record World (H : Type) := {
  transport : Transport;
  calls : list Call;
  health : H;
  logs : list string
}.
Arguments transport {H} _.
Arguments calls {H} _.
Arguments health {H} _.
Arguments logs {H} _.

(** Computations over the world. *)
Definition M (H A : Type) : Type := World H -> A * World H.

#[global] Instance M_ret {H} : MRet (M H) := fun A a w => (a, w).
#[global] Instance M_bind {H} : MBind (M H) :=
  fun A B f m w => let '(a, w) := m w in f a w.

Definition perform {H} (c : Call) : M H (option error) :=
  fun w =>
    (transport w (calls w) c,
     {| transport := transport w; calls := calls w ++ [c];
        health := health w; logs := logs w |}).

Definition next_id {H} : M H nat := fun w => (length (calls w), w).

Definition on_health {H} (f : H -> H) : M H unit :=
  fun w =>
    (tt, {| transport := transport w; calls := calls w;
            health := f (health w); logs := logs w |}).

Definition log_Printf {H} (msg : string) : M H unit :=
  fun w =>
    (tt, {| transport := transport w; calls := calls w;
            health := health w; logs := logs w ++ [msg] |}).

(** [grpc.Dial(addr, opts...)] *)
Definition grpc_Dial {H} (addr : string) (opts : list grpc.DialOption)
    : M H (grpc.ClientConn * option error) :=
  id ← next_id;
  err ← perform (CallDial addr opts);
  mret ({| grpc.conn_id := id; grpc.target := addr |}, err).

(** [client.BatchSender(context.Background())] *)
Definition BatchSender {H} (a : Api) (c : grpc.ClientConn)
    : M H (BatchSenderClient * option error) :=
  id ← next_id;
  err ← perform (CallBatchSender a c);
  mret ({| api := a; conn := c; stream_id := id |}, err).

Definition CloseAndRecv {H} (s : BatchSenderClient) : M H (option error) :=
  perform (CallCloseAndRecv s).

Definition ClientConn_Close {H} (c : grpc.ClientConn) : M H (option error) :=
  perform (CallConnClose c).

Record SenderFetcher := { opts : list grpc.DialOption }.

Definition NewSenderFetcher (opts : list grpc.DialOption) : SenderFetcher :=
  {| opts := opts |}.

Record decrementingCloser := { closer : grpc.ClientConn }.

Definition establish_error (err : error) : error :=
  ErrorString ("error establishing ingestor stream to: " +:+ Error err).

Definition openStream {H} (conn : grpc.ClientConn)
    : M H (option BatchSenderClient * option error) :=
  let client := Ingress in
  '(sender, err) ← BatchSender client conn;
  match err with
  | Some err => mret (None, Some (establish_error err))
  | None =>
      err ← CloseAndRecv sender;
      let '(s, ok) := grpc.status_FromError err in
      if ok && bool_decide (s = codes.Unimplemented) then
        _ ← log_Printf "failed to open stream, falling back to deprecated API";
        let client := DopplerIngress in
        '(sender, err) ← BatchSender client conn;
        match err with
        | Some err => mret (None, Some (establish_error err))
        | None => mret (Some sender, None)
        end
      else
        '(sender, err) ← BatchSender client conn;
        match err with
        | Some err => mret (None, Some (establish_error err))
        | None => mret (Some sender, None)
        end
  end.

Definition Fetch {H} `{HealthRegistrar H} (p : SenderFetcher) (addr : string)
    : M H (option decrementingCloser * option BatchSenderClient * option error) :=
  '(conn, err) ← grpc_Dial addr (opts p);
  match err with
  | Some err =>
      mret (None, None,
            Some (ErrorString ("error dialing ingestor stream to " +:+ addr
                               +:+ ": " +:+ Error err)))
  | None =>
      '(sender, err) ← openStream conn;
      match err with
      | Some err =>
          _ ← ClientConn_Close conn;
          mret (None, None, Some err)
      | None =>
          _ ← on_health (Inc "dopplerConnections");
          _ ← on_health (Inc "dopplerV2Streams");
          _ ← log_Printf ("successfully established a stream to doppler " +:+ addr);
          let closer := {| closer := conn |} in
          mret (Some closer, sender, err)
      end
  end.

Definition Close {H} `{HealthRegistrar H} (d : decrementingCloser)
    : M H (option error) :=
  _ ← on_health (Dec "dopplerConnections");
  _ ← on_health (Dec "dopplerV2Streams");
  ClientConn_Close (closer d).

End clientpoolv2.

(** ** pkg/healthendpoint *)

Module healthendpoint.

(** Modelled from the spec: the health registrar of [pkg/healthendpoint]
    is not part of the sources at hand.  The spec describes it as named
    integer counters with [Inc(name)] and [Dec(name)], incremented and
    decremented by paired lifecycle events.  A counter that was never
    touched reads 0. *)
Abbreviation Registrar := (gmap string Z).

Definition value (name : string) (r : Registrar) : Z := default 0 (r !! name).

#[global] Instance Registrar_health : clientpoolv2.HealthRegistrar Registrar := {|
  clientpoolv2.Inc name r := <[name := value name r + 1]> r;
  clientpoolv2.Dec name r := <[name := value name r - 1]> r
|}.

End healthendpoint.

(** ** A caller of the fetcher

    The connection managers that call [Fetch] and [Close] are not part of
    the sources at hand.  A caller is described by what it does with the
    fetcher: it fetches, keeps the closers it was given, and closes
    closers it holds (each at most once, after which it lets go of it). *)

Module caller.
Import clientpoolv2.

(** Both counters of [w'] are those of [w] plus [d]. *)
Definition moved (w w' : World healthendpoint.Registrar) (d : Z) : Prop :=
  healthendpoint.value "dopplerConnections" (health w') =
    healthendpoint.value "dopplerConnections" (health w) + d /\
  healthendpoint.value "dopplerV2Streams" (health w') =
    healthendpoint.value "dopplerV2Streams" (health w) + d.

Inductive Op :=
| DoFetch (addr : string)
| DoClose (i : nat).

Definition step {H} `{HealthRegistrar H} (p : SenderFetcher) (o : Op)
    (held : list decrementingCloser) : M H (list decrementingCloser) :=
  match o with
  | DoFetch addr =>
      '(c, _, _) ← Fetch p addr;
      match c with
      | Some c => mret (held ++ [c])
      | None => mret held
      end
  | DoClose i =>
      match held !! i with
      | Some c => _ ← Close c; mret (delete i held)
      | None => mret held
      end
  end.

Fixpoint run {H} `{HealthRegistrar H} (p : SenderFetcher) (ops : list Op)
    (held : list decrementingCloser) : M H (list decrementingCloser) :=
  match ops with
  | [] => mret held
  | o :: ops => held ← step p o held; run p ops held
  end.

End caller.

(** ** The v2 application wiring *)

Module rand.
(** [math/rand] (external): a source of pseudo-random numbers.
    [Int63n n] is only called with [n = 1000] here. *)
Class Source (R : Type) := Int63n : Z -> R -> Z * R.

(** The documented contract of [Int63n]: a non-negative number in the
    half-open interval from 0 to [n]. *)
Class SourceInRange (R : Type) `{Source R} :=
  Int63n_range : forall n r, 0 < n -> 0 <= (Int63n n r).1 < n.
End rand.

(** [int64] arithmetic wraps. *)
Definition int64 (z : Z) : Z := (z + 2 ^ 63) mod 2 ^ 64 - 2 ^ 63.

Module app.

Definition IP := list Z.
Definition Lookup := string -> list IP * option error.

Record GRPC := { Port : Z }.

Record Config := {
  RouterAddr : string;
  RouterAddrWithAZ : string;
  Tags : gmap string string;
  GRPC_ : GRPC
}.

(** The configuration and the metric client are taken to be there:
    [NewV2App] stores both as given and [Start] and [initializePool] use
    them without a check, so a nil one is a nil dereference that this
    record does not describe.  The credentials may be nil. *)
Record AppV2 := {
  config : Config;
  clientCreds : option grpc.TransportCredentials;
  serverCreds : option grpc.TransportCredentials;
  lookup : Lookup
}.

Definition AppV2Option := AppV2 -> AppV2.

Definition WithV2Lookup (l : Lookup) : AppV2Option :=
  fun a =>
    {| config := config a; clientCreds := clientCreds a;
       serverCreds := serverCreds a; lookup := l |}.

Definition NewV2App (net_LookupIP : Lookup) (c : Config)
    (clientCreds serverCreds : option grpc.TransportCredentials)
    (opts : list AppV2Option) : AppV2 :=
  let a := {| config := c; clientCreds := clientCreds;
              serverCreds := serverCreds; lookup := net_LookupIP |} in
  foldl (fun a o => o a) a opts.

(** Modelled from the spec: the balancer, the connector, the connection
    manager and the pool of [pkg/clientpool/v2] are not part of the
    sources at hand; only their constructors are called here.  Each
    constructor keeps its arguments.  A balancer is what resolves one
    logical address through an injected lookup; the connector holds the
    fetcher and the balancers in the order given; a connection manager
    holds its connector, its message-count ceiling and its elapsed-time
    refresh floor; the pool is the fixed collection of its managers. *)
Record Balancer := { addr : string; balancer_lookup : Lookup }.

Definition NewBalancer (addr : string) (l : Lookup) : Balancer :=
  {| addr := addr; balancer_lookup := l |}.

Record GRPCConnector := {
  fetcher : clientpoolv2.SenderFetcher;
  balancers : list Balancer
}.

Definition MakeGRPCConnector (f : clientpoolv2.SenderFetcher)
    (bs : list Balancer) : GRPCConnector :=
  {| fetcher := f; balancers := bs |}.

Record ConnManager := {
  connector : GRPCConnector;
  maxWrites : Z;
  refreshFloor : time.Duration
}.

Definition NewConnManager (c : GRPCConnector) (maxWrites : Z)
    (d : time.Duration) : ConnManager :=
  {| connector := c; maxWrites := maxWrites; refreshFloor := d |}.

Record ClientPool := { conns : list ConnManager }.

Definition New (conns : list ConnManager) : ClientPool := {| conns := conns |}.

Inductive result (A : Type) :=
| Ok (a : A)
| Panic (msg : string).
Arguments Ok {A} _.
Arguments Panic {A} _.

(** The manager that one iteration of the loop in [initializePool]
    makes from the offset it drew. *)
Definition manager_of (connector : GRPCConnector) (v : Z) : ConnManager :=
  NewConnManager connector (int64 (100000 + v)) time.Second.

Section initializePool.
Context {R : Type} `{rand.Source R}.

(** [for i := 0; i < 5; i++ { connManagers = append(connManagers, ...) }],
    with [k] iterations left to run. *)
Fixpoint make_managers (k : nat) (connector : GRPCConnector)
    (connManagers : list ConnManager) (r : R) : list ConnManager * R :=
  match k with
  | O => (connManagers, r)
  | S k =>
      let '(v, r) := rand.Int63n 1000 r in
      let m := NewConnManager connector (int64 (100000 + v)) time.Second in
      make_managers k connector (connManagers ++ [m]) r
  end.

Definition initializePool (a : AppV2) (r : R) : result ClientPool * R :=
  match clientCreds a with
  | None => (Panic "Failed to load TLS client config", r)
  | Some creds =>
      let balancers : list Balancer := [] in
      let balancers :=
        if bool_decide (RouterAddrWithAZ (config a) ≠ "")
        then balancers ++ [NewBalancer (RouterAddrWithAZ (config a)) (lookup a)]
        else balancers in
      let balancers :=
        balancers ++ [NewBalancer (RouterAddr (config a)) (lookup a)] in
      let statsHandler :=
        {| grpc.average_gauge := "average_envelope";
           grpc.average_unit := "bytes/minute";
           grpc.average_every := 60 * time.Second |} in
      let kp :=
        {| grpc.Time := 15 * time.Second; grpc.Timeout := 15 * time.Second;
           grpc.PermitWithoutStream := true |} in
      let fetcher :=
        clientpoolv2.NewSenderFetcher
          [grpc.WithTransportCredentials creds;
           grpc.WithStatsHandler statsHandler;
           grpc.WithKeepaliveParams kp] in
      let connector := MakeGRPCConnector fetcher balancers in
      let '(connManagers, r) := make_managers 5 connector [] r in
      (Ok (New connManagers), r)
  end.
End initializePool.

End app.

(** ** Reading the store *)

Module heap.
Import loggregator_v2.

(** The contents of an envelope's deprecated-tag map; a nil map reads as
    the empty map. *)
Definition deprecated_tags (st : Store) (e : Envelope) : gmap string Value :=
  match DeprecatedTags e with
  | Some r => default ∅ (tagmaps st !! r)
  | None => ∅
  end.

(** A non-nil map reference of the envelope has contents in the store. *)
Definition allocated (st : Store) (e : Envelope) : Prop :=
  match DeprecatedTags e with
  | Some r => is_Some (tagmaps st !! r)
  | None => True
  end.

#[global] Instance allocated_dec st e : Decision (allocated st e).
Proof. unfold allocated. destruct (DeprecatedTags e); apply _. Defined.

(** Every envelope of the store is allocated: no dangling map reference. *)
Definition store_ok (st : Store) : Prop :=
  map_Forall (fun _ e => allocated st e) (envs st).

(** No pointer of the batch is nil. *)
Definition live (st : Store) (batch : list loc) : Prop :=
  Forall (fun l => is_Some (envs st !! l)) batch.

(** Everything of an envelope but its deprecated-tag map. *)
Definition same_but_deprecated (e e' : Envelope) : Prop :=
  Timestamp e' = Timestamp e /\ SourceId e' = SourceId e /\
  InstanceId e' = InstanceId e /\ Tags e' = Tags e /\
  Message_ e' = Message_ e.

(** Two stores hold envelopes at the same pointers, and each envelope
    differs at most in its deprecated-tag map. *)
Definition same_envelopes (st st' : Store) : Prop :=
  forall l, option_Forall2 same_but_deprecated (envs st !! l) (envs st' !! l).

(** The rule of tag normalization, key by key: the structured tag if
    there is one, else what the deprecated-tag map already had, else the
    static tag. *)
Definition normalized (structured static : gmap string string)
    (old new : gmap string Value) : Prop :=
  forall k,
    new !! k =
    match structured !! k with
    | Some v => Some (Value_Text v)
    | None =>
        match old !! k with
        | Some x => Some x
        | None => Value_Text <$> static !! k
        end
    end.

(** The deprecated tags of the envelope at a pointer, if it has a
    non-nil map. *)
Definition deprecated_tags_at (st : Store) (l : loc) : option (gmap string Value) :=
  e ← envs st !! l;
  r ← DeprecatedTags e;
  tagmaps st !! r.

End heap.

(** ** Concrete collaborators, used to exercise the statements *)

Module fixtures.
Import loggregator_v2 egress.

(** A nexter that replays a script of polls. *)
#[global] Instance script_nexter : Nexter (list (option loc)) :=
  fun n => match n with
           | [] => (None, [])
           | x :: n => (x, n)
           end.

(** A writer that records what it is given and fails when told to. *)
Record recorder := { failing : bool; received : list (list loc) }.

#[global] Instance recorder_writer : Writer recorder :=
  fun w batch st =>
    (if failing w then Some (ErrorString "no connection") else None,
     st,
     {| failing := failing w; received := received w ++ [batch] |}).

(** Modelled from the spec: the batcher of [pkg/plumbing/batching] is
    not part of the sources at hand.  The spec has it append to the
    current batch, flush at once when the batch reaches the configured
    size, and flush any non-empty pending batch on [Flush]. *)
Record pending := { size : Z; batch : list loc }.

Definition flush_pending {X} (wr : list loc -> X -> option X)
    (p : pending) (x : X) : option (pending * X) :=
  match batch p with
  | [] => Some (p, x)
  | _ => x ← wr (batch p) x; Some ({| size := size p; batch := [] |}, x)
  end.

#[global] Instance pending_batcher {X E} : Batcher pending X E := {|
  NewV2EnvelopeBatcher sz _ := {| size := sz; batch := [] |};
  batcher_Write wr p e _ x :=
    let p := {| size := size p; batch := batch p ++ [e] |} in
    if bool_decide (size p <= Z.of_nat (length (batch p)))
    then flush_pending wr p x
    else Some (p, x);
  batcher_Flush wr p _ x := flush_pending wr p x
|}.

Definition env1 : Envelope :=
  {| Timestamp := 1500000000; SourceId := "app-1"; InstanceId := "0";
     DeprecatedTags := None; Tags := {[ "env" := "prod" ]};
     Message_ := Some (Envelope_Log "hello" 0) |}.

Definition env2 : Envelope :=
  {| Timestamp := 1500000001; SourceId := "app-2"; InstanceId := "3";
     DeprecatedTags := Some 7%positive; Tags := {[ "job" := "web" ]};
     Message_ := Some (Envelope_Counter "requests" 1 0) |}.

Definition store0 : Store :=
  {| envs := {[ 1%positive := env1; 2%positive := env2 ]};
     tagmaps := {[ 7%positive := {[ "origin" := Value_Text "legacy";
                                    "job" := Value_Integer 9 ]} ]} |}.

Definition static_tags : gmap string string :=
  {[ "env" := "dev"; "az" := "z1" ]}.

Definition tx0 (failing : bool) : Transponder (list (option loc)) recorder :=
  NewTransponder [Some 1%positive; None; Some 2%positive]
    {| failing := failing; received := [] |}
    static_tags 100 (100 * time.Millisecond).

(** The loop about to poll an empty buffer with one envelope pending in
    the batcher, and about to poll a buffer that holds an envelope. *)
Definition idle_loop : Loop (list (option loc)) recorder pending :=
  {| tx := with_nexter [] (tx0 false);
     b := {| size := 100; batch := [2%positive] |};
     heap := store0; events := [EvBatcherWrite 2%positive] |}.

Definition busy_loop : Loop (list (option loc)) recorder pending :=
  Start_init (tx0 false) store0.

End fixtures.

Module servers.
Import clientpoolv2.

(** A downstream that only knows the deprecated call: closing a stream
    of the current call reports [Unimplemented]. *)
Definition legacy_only : Transport :=
  fun _ c =>
    match c with
    | CallCloseAndRecv {| api := Ingress |} =>
        Some (StatusError codes.Unimplemented "unknown service loggregator.v2.Ingress")
    | _ => None
    end.

(** A downstream that knows the current call: closing the idle probe
    ends it without a status error. *)
Definition current : Transport :=
  fun _ c =>
    match c with
    | CallCloseAndRecv _ => Some (ErrorString "EOF")
    | _ => None
    end.

(** Dialing is refused. *)
Definition unreachable : Transport :=
  fun _ c =>
    match c with
    | CallDial _ _ => Some (ErrorString "no transport security set")
    | _ => None
    end.

(** The connection is made but no stream can be opened on it. *)
Definition no_streams : Transport :=
  fun _ c =>
    match c with
    | CallBatchSender _ _ => Some (StatusError codes.Unavailable "connection refused")
    | _ => None
    end.

Definition world0 (t : Transport) : World healthendpoint.Registrar :=
  {| transport := t; calls := [];
     health := {[ "dopplerConnections" := 2; "dopplerV2Streams" := 2 ]};
     logs := [] |}.

Definition fetcher0 : SenderFetcher :=
  NewSenderFetcher [grpc.WithTransportCredentials (grpc.TLS "agent")].

End servers.

Module lcg.
(** A linear congruential generator as a source of random numbers. *)
#[global] Instance source : rand.Source Z :=
  fun n seed =>
    let seed := (seed * 6364136223846793005 + 1442695040888963407) mod 2 ^ 63 in
    (seed mod n, seed).
End lcg.

Module app_fixtures.
Import app.

Definition no_lookup : Lookup := fun _ => ([], Some (ErrorString "no such host")).

Definition config0 (az : string) : Config :=
  {| RouterAddr := "doppler.service.cf.internal:8082";
     RouterAddrWithAZ := az; Tags := ∅; GRPC_ := {| Port := 3458 |} |}.

Definition app0 (az : string) : AppV2 :=
  NewV2App no_lookup (config0 az) (Some (grpc.TLS "agent"))
    (Some (grpc.TLS "agent")) [].

End app_fixtures.

(** The offsets drawn by the five iterations of the manager loop. *)
Fixpoint draws {R} `{rand.Source R} (k : nat) (r : R) : list Z :=
  match k with
  | O => []
  | S k => let '(v, r) := rand.Int63n 1000 r in v :: draws k r
  end.

(** ** Further definitions: runs of the operations above *)

Module flushes.
Import egress.

(** Successive calls of [write], one per batch that is flushed, each on
    the transponder and the store the call before it left. *)
Fixpoint write_each {N W} `{Writer W} (t : Transponder N W)
    (batches : list (list loc)) (st : Store)
    : option (Transponder N W * Store) :=
  match batches with
  | [] => Some (t, st)
  | batch :: batches => '(t, st) ← write t batch st; write_each t batches st
  end.

(** The number of envelopes in the batches. *)
Definition envelopes (batches : list (list loc)) : Z :=
  Z.of_nat (length (concat batches)).

End flushes.

Module transport_view.
Import clientpoolv2.

(** The connection a call is made on; dialing is on none yet. *)
Definition call_conn (c : Call) : option grpc.ClientConn :=
  match c with
  | CallDial _ _ => None
  | CallBatchSender _ c => Some c
  | CallSend s _ => Some (conn s)
  | CallCloseAndRecv s => Some (conn s)
  | CallConnClose c => Some c
  end.

Definition is_send (c : Call) : bool :=
  match c with
  | CallSend _ _ => true
  | _ => false
  end.

(** [Close] called [n] times in a row on the same closer. *)
Fixpoint Close_times {H} `{HealthRegistrar H} (n : nat)
    (d : decrementingCloser) : M H unit :=
  match n with
  | O => mret tt
  | S n => _ ← Close d; Close_times n d
  end.

End transport_view.

Module app_start.
Import app.

(** [keepalive.EnforcementPolicy] *)
Record EnforcementPolicy := {
  MinTime : time.Duration;
  PermitWithoutStream : bool
}.

Inductive ServerOption :=
| Creds (c : grpc.TransportCredentials)
| KeepaliveEnforcementPolicy (kp : EnforcementPolicy).

(** The alert of the envelope buffer: what it does to the ingress
    dropped counter and the line it logs. *)
Definition AlertFunc : Type :=
  Z -> pulseemitter.CounterMetric -> pulseemitter.CounterMetric * string.

(** What [Start] has set up when it hands over to the ingress server. *)
Record Started (N W : Type) := {
  droppedMetric : pulseemitter.CounterMetric;
  envelopeBuffer : N;
  tx : egress.Transponder N W;
  agentAddress : string;
  serverOptions : list ServerOption
}.
Arguments droppedMetric {N W} _.
Arguments envelopeBuffer {N W} _.
Arguments tx {N W} _.
Arguments agentAddress {N W} _.
Arguments serverOptions {N W} _.

Definition alert : AlertFunc :=
  fun missed droppedMetric =>
    (pulseemitter.Increment (uint64 missed) droppedMetric,
     "Dropped " +:+ pretty missed +:+ " v2 envelopes").

Section Start.
Context {R N W : Type} `{rand.Source R}.

(** The envelope buffer of [pkg/diodes] and the counter aggregator of
    [pkg/egress/v2] are not part of the sources at hand; their
    constructors are taken as parameters.  The receiver and the server
    of [pkg/ingress/v2] only receive what is recorded in [Started]. *)
Variable NewManyToOneEnvelopeV2 : Z -> AlertFunc -> N.
Variable NewCounterAggregator : ClientPool -> W.

Definition Start (a : AppV2) (r : R) : result (Started N W) * R :=
  match serverCreds a with
  | None => (Panic "Failed to load TLS server config", r)
  | Some serverCreds =>
      let droppedMetric :=
        pulseemitter.NewCounterMetric "dropped"
          [pulseemitter.WithVersion 2 0;
           pulseemitter.WithTags {[ "direction" := "ingress" ]}] in
      let envelopeBuffer := NewManyToOneEnvelopeV2 10000 alert in
      let '(pool, r) := initializePool a r in
      match pool with
      | Panic msg => (Panic msg, r)
      | Ok pool =>
          let counterAggr := NewCounterAggregator pool in
          let tx :=
            egress.NewTransponder envelopeBuffer counterAggr
              (Tags (config a)) 100 (100 * time.Millisecond) in
          let agentAddress :=
            "127.0.0.1:" +:+ pretty (Port (GRPC_ (config a))) in
          let kp := {| MinTime := 10 * time.Second;
                       PermitWithoutStream := true |} in
          (Ok {| droppedMetric := droppedMetric;
                 envelopeBuffer := envelopeBuffer;
                 tx := tx;
                 agentAddress := agentAddress;
                 serverOptions :=
                   [Creds serverCreds; KeepaliveEnforcementPolicy kp] |}, r)
      end
  end.
End Start.

End app_start.

Module more_fixtures.
Import loggregator_v2 egress fixtures.

(** Two envelopes that share one deprecated-tag map, and a third with a
    map of its own. *)
Definition shared1 : Envelope :=
  {| Timestamp := 10; SourceId := "app-1"; InstanceId := "0";
     DeprecatedTags := Some 5%positive; Tags := {[ "env" := "prod" ]};
     Message_ := None |}.

Definition shared2 : Envelope :=
  {| Timestamp := 11; SourceId := "app-1"; InstanceId := "1";
     DeprecatedTags := Some 5%positive; Tags := ∅; Message_ := None |}.

Definition apart : Envelope :=
  {| Timestamp := 12; SourceId := "app-9"; InstanceId := "0";
     DeprecatedTags := Some 6%positive; Tags := ∅; Message_ := None |}.

Definition shared_store : Store :=
  {| envs := {[ 1%positive := shared1; 2%positive := shared2;
                3%positive := apart ]};
     tagmaps := {[ 5%positive := ∅; 6%positive := ∅ ]} |}.

(** A writer that fails on every second call. *)
Record flaky := { calls_seen : nat }.

#[global] Instance flaky_writer : Writer flaky :=
  fun w batch st =>
    (if Nat.even (calls_seen w) then None else Some (ErrorString "broken pipe"),
     st, {| calls_seen := S (calls_seen w) |}).

Definition flaky_tx : Transponder (list (option loc)) flaky :=
  NewTransponder [] {| calls_seen := 0 |} static_tags 100
    (100 * time.Millisecond).

End more_fixtures.

(** * Properties *)

(** ** Tag normalization *)

Section tag_loops.
Import loggregator_v2 egress.
Implicit Types (m : gmap string Value) (o : list (string * string)).
Implicit Types (T : gmap string string) (k : string).

Lemma move_tags_cons k v o m :
  move_tags ((k, v) :: o) m = move_tags o (<[k := Value_Text v]> m).
Proof. reflexivity. Qed.

Lemma fill_tags_cons k v o m :
  fill_tags ((k, v) :: o) m =
  fill_tags o (match m !! k with
               | Some _ => m
               | None => <[k := Value_Text v]> m
               end).
Proof. reflexivity. Qed.

(** Visiting distinct keys: a moved key reads as its text, any other key
    keeps what it had. *)
Lemma move_tags_lookup o m k :
  NoDup o.*1 ->
  move_tags o m !! k =
  match (list_to_map o : gmap string string) !! k with
  | Some v => Some (Value_Text v)
  | None => m !! k
  end.
Proof.
  revert m. induction o as [|[k' v'] o IH]; intros m Hnd; [done|].
  apply NoDup_cons in Hnd as [Hk' Hnd]. cbn in Hk'.
  rewrite move_tags_cons, IH by done. cbn [list_to_map foldr].
  destruct (decide (k' = k)) as [->|Hne].
  - rewrite lookup_insert_eq.
    rewrite (proj1 (not_elem_of_list_to_map o k) Hk').
    by rewrite lookup_insert_eq.
  - rewrite !lookup_insert_ne by done. done.
Qed.

Lemma fill_tags_lookup o m k :
  NoDup o.*1 ->
  fill_tags o m !! k =
  match m !! k with
  | Some x => Some x
  | None => Value_Text <$> (list_to_map o : gmap string string) !! k
  end.
Proof.
  revert m. induction o as [|[k' v'] o IH]; intros m Hnd.
  { cbn. rewrite lookup_empty. by destruct (m !! k). }
  apply NoDup_cons in Hnd as [Hk' Hnd]. cbn in Hk'.
  rewrite fill_tags_cons, IH by done. cbn [list_to_map foldr].
  pose proof (proj1 (not_elem_of_list_to_map o k') Hk') as Hnone.
  destruct (decide (k' = k)) as [->|Hne].
  - rewrite lookup_insert_eq, Hnone.
    destruct (m !! k) eqn:Hm; [by rewrite Hm|].
    by rewrite lookup_insert_eq.
  - rewrite lookup_insert_ne by done.
    destruct (m !! k') eqn:Hm'; [done|].
    by rewrite lookup_insert_ne.
Qed.

(** Any visiting order of a map's entries lists its keys once and reads
    back as the map. *)
Lemma order_NoDup o T : o ≡ₚ map_to_list T -> NoDup o.*1.
Proof. intros ->. apply NoDup_fst_map_to_list. Qed.

Lemma order_to_map o T : o ≡ₚ map_to_list T -> list_to_map o = T.
Proof.
  intros Ho. rewrite <- (list_to_map_to_list T).
  apply list_to_map_proper; [by eapply order_NoDup|done].
Qed.

Lemma move_tags_order o T m :
  o ≡ₚ map_to_list T -> move_tags o m = (Value_Text <$> T) ∪ m.
Proof.
  intros Ho. apply map_eq; intros k.
  rewrite move_tags_lookup by (by eapply order_NoDup).
  rewrite (order_to_map o T Ho), lookup_union, lookup_fmap.
  destruct (T !! k), (m !! k); done.
Qed.

Lemma fill_tags_order o T m :
  o ≡ₚ map_to_list T -> fill_tags o m = m ∪ (Value_Text <$> T).
Proof.
  intros Ho. apply map_eq; intros k.
  rewrite fill_tags_lookup by (by eapply order_NoDup).
  rewrite (order_to_map o T Ho), lookup_union, lookup_fmap.
  destruct (T !! k), (m !! k); done.
Qed.

End tag_loops.

Section addTags_facts.
Import loggregator_v2 egress heap.
Implicit Types (st : Store) (e : Envelope) (l : loc).

Lemma with_DeprecatedTags_id e r :
  DeprecatedTags e = Some r -> with_DeprecatedTags (Some r) e = e.
Proof. destruct e; cbn; by intros ->. Qed.

Lemma fresh_mapref st : tagmaps st !! fresh (dom (tagmaps st)) = None.
Proof. apply not_elem_of_dom, is_fresh. Qed.

(** The store [addTags] leaves behind, whatever the visiting orders: the
    envelope refers to [r], which is its old map or a fresh one, and [r]
    holds the structured tags over the old contents over the static
    tags. *)
Lemma addTags_in_order_spec st l e o1 o2 (static : gmap string string) :
  envs st !! l = Some e ->
  allocated st e ->
  o1 ≡ₚ map_to_list (Tags e) ->
  o2 ≡ₚ map_to_list static ->
  exists r,
    match DeprecatedTags e with
    | Some r' => r = r'
    | None => r = fresh (dom (tagmaps st))
    end /\
    addTags_in_order o1 o2 l st =
    Some {| envs := <[l := with_DeprecatedTags (Some r) e]> (envs st);
            tagmaps :=
              <[r := (Value_Text <$> Tags e) ∪ deprecated_tags st e
                       ∪ (Value_Text <$> static)]> (tagmaps st) |}.
Proof.
  intros Hl Halloc Ho1 Ho2. unfold addTags_in_order, allocated, deprecated_tags in *.
  rewrite Hl. cbn. destruct (DeprecatedTags e) as [r|] eqn:Hdep.
  - exists r. split; [done|]. destruct Halloc as [m Hm]. rewrite Hm. cbn.
    rewrite (move_tags_order o1 (Tags e)), (fill_tags_order o2 static) by done.
    unfold set_tagmap. f_equal. f_equal.
    rewrite with_DeprecatedTags_id by done. by rewrite insert_id.
  - exists (fresh (dom (tagmaps st))). split; [done|]. cbn.
    rewrite lookup_insert_eq. cbn.
    rewrite (move_tags_order o1 (Tags e)), (fill_tags_order o2 static) by done.
    unfold set_tagmap. cbn. f_equal. f_equal.
    by rewrite insert_insert_eq.
Qed.

Lemma addTags_spec {N W} (t : Transponder N W) st l e :
  envs st !! l = Some e ->
  allocated st e ->
  exists r,
    match DeprecatedTags e with
    | Some r' => r = r'
    | None => r = fresh (dom (tagmaps st))
    end /\
    addTags t l st =
    Some {| envs := <[l := with_DeprecatedTags (Some r) e]> (envs st);
            tagmaps :=
              <[r := (Value_Text <$> Tags e) ∪ deprecated_tags st e
                       ∪ (Value_Text <$> tags t)]> (tagmaps st) |}.
Proof.
  intros Hl Halloc. unfold addTags. rewrite Hl. cbn.
  by apply addTags_in_order_spec.
Qed.

(** The order in which the two maps are visited does not show. *)
Lemma addTags_any_order {N W} (t : Transponder N W) st l e o1 o2 :
  envs st !! l = Some e ->
  allocated st e ->
  o1 ≡ₚ map_to_list (Tags e) ->
  o2 ≡ₚ map_to_list (tags t) ->
  addTags_in_order o1 o2 l st = addTags t l st.
Proof.
  intros Hl Halloc Ho1 Ho2.
  destruct (addTags_in_order_spec st l e o1 o2 (tags t)) as (r & Hr & ->); [done..|].
  destruct (addTags_spec t st l e) as (r' & Hr' & ->); [done..|].
  destruct (DeprecatedTags e); by subst.
Qed.

End addTags_facts.

Section tag_normalization.
Import loggregator_v2 egress heap fixtures.

Lemma normalized_union (structured static : gmap string string)
    (old : gmap string Value) :
  normalized structured static old
    ((Value_Text <$> structured) ∪ old ∪ (Value_Text <$> static)).
Proof.
  intros k. rewrite !lookup_union, !lookup_fmap.
  destruct (structured !! k), (old !! k), (static !! k); done.
Qed.

(** C1.  Tag normalization.  For an envelope behind a non-nil pointer,
    and whatever the order in which Go visits the two maps, [addTags]
    returns, the envelope then has a deprecated-tag map, and that map
    reads, at every key: the text of the structured tag if there is one
    (overwriting what was there); else what the map held before; else
    the text of the static tag.  So a structured tag wins over a static
    tag of the same key and static tags only fill gaps.  In particular
    structured tags env=prod with static tags env=dev, az=z1 give
    deprecated tags env=prod, az=z1. *)
Theorem addTags_structured_tags_win :
  (forall N W (t : Transponder N W) st l e o1 o2,
      envs st !! l = Some e ->
      allocated st e ->
      o1 ≡ₚ map_to_list (GetTags e) ->
      o2 ≡ₚ map_to_list (tags t) ->
      exists st' m,
        addTags_in_order o1 o2 l st = Some st' /\
        addTags t l st = Some st' /\
        deprecated_tags_at st' l = Some m /\
        normalized (GetTags e) (tags t) (deprecated_tags st e) m) /\
  (exists st',
      addTags (tx0 false) 1%positive store0 = Some st' /\
      Tags env1 = {[ "env" := "prod" ]} /\
      tags (tx0 false) = {[ "env" := "dev"; "az" := "z1" ]} /\
      deprecated_tags_at st' 1%positive =
      Some {[ "env" := Value_Text "prod"; "az" := Value_Text "z1" ]}).
Proof.
  split.
  - intros N W t st l e o1 o2 Hl Halloc Ho1 Ho2.
    rewrite (addTags_any_order t st l e o1 o2) by done.
    destruct (addTags_spec t st l e) as (r & _ & ->); [done..|].
    eexists _, _. split; [done|]. split; [done|]. split.
    + unfold deprecated_tags_at. cbn. rewrite lookup_insert_eq. cbn.
      by rewrite lookup_insert_eq.
    + apply normalized_union.
  - eexists. split; [reflexivity|].
    split; [reflexivity|]. split; reflexivity.
Qed.

End tag_normalization.

Section tag_normalization_witness.
Import loggregator_v2 egress heap fixtures.

(** The theorem at an envelope that already has deprecated tags, with the
    static tags visited in the other order. *)
Lemma addTags_structured_tags_win_witness :
  let t := tx0 false in
  let o1 := [("job", "web")] in
  let o2 := [("az", "z1"); ("env", "dev")] in
  envs store0 !! 2%positive = Some env2 /\
  allocated store0 env2 /\
  o1 ≡ₚ map_to_list (GetTags env2) /\
  o2 ≡ₚ map_to_list (tags t) /\
  exists st' m,
    addTags_in_order o1 o2 2%positive store0 = Some st' /\
    addTags t 2%positive store0 = Some st' /\
    deprecated_tags_at st' 2%positive = Some m /\
    normalized (GetTags env2) (tags t) (deprecated_tags store0 env2) m.
Proof.
  intros t o1 o2.
  assert (H1 : envs store0 !! 2%positive = Some env2) by reflexivity.
  assert (H2 : allocated store0 env2)
    by (apply (bool_decide_unpack _); vm_compute; exact I).
  assert (H3 : o1 ≡ₚ map_to_list (GetTags env2)) by (vm_compute; reflexivity).
  assert (H4 : o2 ≡ₚ map_to_list (tags t)) by (vm_compute; apply perm_swap).
  repeat (split; [assumption|]).
  exact (proj1 addTags_structured_tags_win _ _ t store0 2%positive env2 o1 o2
           H1 H2 H3 H4).
Defined.

End tag_normalization_witness.

Section nil_map.
Import loggregator_v2 egress heap fixtures.

(** C8.  For an envelope behind a non-nil pointer, with a nil
    deprecated-tag map or not, [addTags] returns (no panic).  When the
    field was nil the envelope afterwards refers to a map that did not
    exist before, and no map that existed has changed; when it was not
    nil the envelope keeps its map.  In both cases the map is non-nil
    afterwards and has an entry for every structured tag key and for
    every static tag key. *)
Theorem addTags_makes_nil_map N W (t : Transponder N W) st l e :
  envs st !! l = Some e ->
  allocated st e ->
  exists st' e' r m,
    addTags t l st = Some st' /\
    envs st' !! l = Some e' /\
    DeprecatedTags e' = Some r /\
    tagmaps st' !! r = Some m /\
    match DeprecatedTags e with
    | None =>
        tagmaps st !! r = None /\
        forall r', r' ≠ r -> tagmaps st' !! r' = tagmaps st !! r'
    | Some r0 => r = r0
    end /\
    forall k,
      is_Some (GetTags e !! k) \/ is_Some (tags t !! k) -> is_Some (m !! k).
Proof.
  intros Hl Halloc.
  destruct (addTags_spec t st l e) as (r & Hr & ->); [done..|].
  eexists _, _, r, _. split; [done|]. cbn.
  rewrite !lookup_insert_eq. repeat split.
  - destruct (DeprecatedTags e); [done|]. subst r. split.
    + apply fresh_mapref.
    + intros r' Hne. by rewrite lookup_insert_ne.
  - intros k. pose proof (normalized_union (Tags e) (tags t)
      (deprecated_tags st e) k) as ->.
    unfold GetTags. intros [[v ->]|[v Hv]]; [done|].
    destruct (Tags e !! k); [done|].
    destruct (deprecated_tags st e !! k); [done|].
    rewrite Hv. done.
Qed.

(** The theorem at an envelope whose deprecated-tag map is nil. *)
Lemma addTags_makes_nil_map_witness :
  DeprecatedTags env1 = None /\
  envs store0 !! 1%positive = Some env1 /\
  allocated store0 env1 /\
  exists st' e' r m,
    addTags (tx0 true) 1%positive store0 = Some st' /\
    envs st' !! 1%positive = Some e' /\
    DeprecatedTags e' = Some r /\
    tagmaps st' !! r = Some m /\
    match DeprecatedTags env1 with
    | None =>
        tagmaps store0 !! r = None /\
        forall r', r' ≠ r -> tagmaps st' !! r' = tagmaps store0 !! r'
    | Some r0 => r = r0
    end /\
    forall k,
      is_Some (GetTags env1 !! k) \/ is_Some (tags (tx0 true) !! k) ->
      is_Some (m !! k).
Proof.
  split; [reflexivity|].
  assert (H1 : envs store0 !! 1%positive = Some env1) by reflexivity.
  assert (H2 : allocated store0 env1) by exact I.
  split; [exact H1|]. split; [exact H2|].
  exact (addTags_makes_nil_map _ _ (tx0 true) store0 1%positive env1 H1 H2).
Defined.

End nil_map.

(** ** The write path *)

Section frame.
Import loggregator_v2 egress heap.
Implicit Types (st : Store) (e : Envelope) (l : loc) (batch : list loc).

Lemma same_but_deprecated_refl e : same_but_deprecated e e.
Proof. by repeat split. Qed.

Lemma same_but_deprecated_trans e1 e2 e3 :
  same_but_deprecated e1 e2 -> same_but_deprecated e2 e3 ->
  same_but_deprecated e1 e3.
Proof.
  intros (?&?&?&?&?) (?&?&?&?&?). repeat split; congruence.
Qed.

Lemma same_but_deprecated_with e r :
  same_but_deprecated e (with_DeprecatedTags r e).
Proof. by repeat split. Qed.

Lemma same_envelopes_refl st : same_envelopes st st.
Proof.
  intros l. destruct (envs st !! l); constructor.
  apply same_but_deprecated_refl.
Qed.

Lemma same_envelopes_trans st1 st2 st3 :
  same_envelopes st1 st2 -> same_envelopes st2 st3 -> same_envelopes st1 st3.
Proof.
  intros H12 H23 l. specialize (H12 l). specialize (H23 l).
  destruct H12 as [e1 e2 H12|]; inversion H23; subst; constructor.
  by eapply same_but_deprecated_trans.
Qed.

Lemma live_same_envelopes st st' batch :
  same_envelopes st st' -> live st batch -> live st' batch.
Proof.
  intros Hsame Hlive. eapply Forall_impl; [exact Hlive|]. intros l [e He].
  specialize (Hsame l). rewrite He in Hsame. inversion Hsame. eauto.
Qed.

(** One call of [addTags] on a well-formed store: it returns, the store
    stays well formed, only the envelope pointed to may have changed, and
    only in its deprecated-tag map. *)
Lemma addTags_frame {N W} (t : Transponder N W) st l :
  store_ok st ->
  is_Some (envs st !! l) ->
  exists st',
    addTags t l st = Some st' /\
    store_ok st' /\
    same_envelopes st st' /\
    forall l', l' ≠ l -> envs st' !! l' = envs st !! l'.
Proof.
  intros Hok [e Hl].
  destruct (addTags_spec t st l e) as (r & Hr & ->); [done|by eapply Hok|].
  eexists. split; [done|]. split; [|split].
  - intros l' e'. cbn. unfold allocated. cbn.
    destruct (decide (l = l')) as [<-|Hne].
    + rewrite lookup_insert_eq. intros [= <-]. cbn.
      rewrite lookup_insert_eq. eauto.
    + rewrite lookup_insert_ne by done. intros He'.
      pose proof (Hok l' e' He') as Ha. unfold allocated in Ha.
      destruct (DeprecatedTags e') as [r'|]; [|done].
      destruct (decide (r = r')) as [<-|Hr'].
      * rewrite lookup_insert_eq. eauto.
      * by rewrite lookup_insert_ne.
  - intros l'. cbn. destruct (decide (l = l')) as [<-|Hne].
    + rewrite lookup_insert_eq, Hl. constructor.
      apply same_but_deprecated_with.
    + rewrite lookup_insert_ne by done.
      destruct (envs st !! l'); constructor. apply same_but_deprecated_refl.
  - intros l' Hne. cbn. by rewrite lookup_insert_ne.
Qed.

(** The loop over the batch, by induction on the batch. *)
Lemma addTags_all_frame {N W} (t : Transponder N W) batch st :
  store_ok st ->
  live st batch ->
  exists st',
    addTags_all t batch st = Some st' /\
    store_ok st' /\
    same_envelopes st st' /\
    forall l, l ∉ batch -> envs st' !! l = envs st !! l.
Proof.
  revert st. induction batch as [|l batch IH]; intros st Hok Hlive.
  { exists st. split; [done|]. split; [done|].
    split; [apply same_envelopes_refl|done]. }
  apply Forall_cons in Hlive as [Hl Hlive].
  destruct (addTags_frame t st l Hok Hl) as (st1 & Hadd & Hok1 & Hsame1 & Hrest1).
  destruct (IH st1 Hok1) as (st2 & Hall & Hok2 & Hsame2 & Hrest2).
  { by eapply live_same_envelopes. }
  exists st2. cbn. rewrite Hadd. cbn. split; [done|]. split; [done|]. split.
  - by eapply same_envelopes_trans.
  - intros l' Hl'. apply not_elem_of_cons in Hl' as [Hne Hl'].
    rewrite Hrest2 by done. by apply Hrest1.
Qed.

End frame.

Section write_facts.
Import loggregator_v2 egress heap fixtures.

(** C9.  Frame of the write path.  On a well-formed store and a batch
    without nil pointers, the tagging loop returns a store [st1] that
    holds envelopes at the same pointers as before, each with its
    timestamp, source identifier, instance identifier, structured tags
    and payload unchanged, and with envelopes outside the batch not
    changed at all.  The writer is then called on the very slice that
    [write] received (same pointers, same length, same order) in that
    store, and what it returns is what [write] ends with. *)
Theorem write_frame N W `{Writer W} (t : Transponder N W) batch st :
  store_ok st ->
  live st batch ->
  exists st1,
    addTags_all t batch st = Some st1 /\
    same_envelopes st st1 /\
    (forall l, l ∉ batch -> envs st1 !! l = envs st !! l) /\
    forall err st2 w,
      Write (writer t) batch st1 = (err, st2, w) ->
      exists t',
        write t batch st = Some (t', st2) /\
        writer t' = w /\ tags t' = tags t /\ nexter t' = nexter t.
Proof.
  intros Hok Hlive.
  destruct (addTags_all_frame t batch st Hok Hlive)
    as (st1 & Hall & _ & Hsame & Hrest).
  exists st1. repeat (split; [done|]).
  intros err st2 w HW. unfold write. rewrite Hall. cbn. rewrite HW.
  destruct err; eexists; (split; [reflexivity|done]).
Qed.

(** The theorem on a batch that names one envelope twice. *)
Lemma write_frame_witness :
  let t := tx0 false in
  let batch := [1%positive; 2%positive; 1%positive] in
  store_ok store0 /\
  live store0 batch /\
  exists st1,
    addTags_all t batch store0 = Some st1 /\
    same_envelopes store0 st1 /\
    (forall l, l ∉ batch -> envs st1 !! l = envs store0 !! l) /\
    forall err st2 w,
      Write (writer t) batch st1 = (err, st2, w) ->
      exists t',
        write t batch store0 = Some (t', st2) /\
        writer t' = w /\ tags t' = tags t /\ nexter t' = nexter t.
Proof.
  intros t batch.
  assert (H1 : store_ok store0)
    by (apply (bool_decide_unpack _); vm_compute; exact I).
  assert (H2 : live store0 batch)
    by (apply (bool_decide_unpack _); vm_compute; exact I).
  split; [exact H1|]. split; [exact H2|].
  exact (write_frame _ _ t batch store0 H1 H2).
Defined.

Lemma uint64_add_len d n : uint64 (d + uint64 n) = uint64 (d + n).
Proof. unfold uint64. by rewrite Zplus_mod_idemp_r. Qed.

(** C4.  Outcome accounting of [write].  On a well-formed store and a
    batch without nil pointers, [write] returns after exactly one call of
    the writer, on the tagged store (no retry: the writer is left in the
    state that one call puts it in).  If that call returned an error the
    dropped counter has grown by the length of the batch (in [uint64]
    arithmetic, so by exactly that length unless the counter wraps) and the
    egress counter is as before; if it returned nil the egress counter has
    grown by the length of the batch and the dropped counter is as
    before. *)
Theorem write_outcome_accounting N W `{Writer W} (t : Transponder N W) batch st :
  store_ok st ->
  live st batch ->
  exists st1 t',
    addTags_all t batch st = Some st1 /\
    write t batch st = Some (t', (Write (writer t) batch st1).1.2) /\
    writer t' = (Write (writer t) batch st1).2 /\
    let n := Z.of_nat (length batch) in
    let grown (m m' : pulseemitter.CounterMetric) :=
      pulseemitter.delta m' = uint64 (pulseemitter.delta m + n) /\
      (0 <= pulseemitter.delta m -> pulseemitter.delta m + n < 2 ^ 64 ->
       pulseemitter.delta m' = pulseemitter.delta m + n) in
    match (Write (writer t) batch st1).1.1 with
    | Some _ =>
        grown (droppedMetric t) (droppedMetric t') /\
        egressMetric t' = egressMetric t
    | None =>
        grown (egressMetric t) (egressMetric t') /\
        droppedMetric t' = droppedMetric t
    end.
Proof.
  intros Hok Hlive.
  destruct (addTags_all_frame t batch st Hok Hlive) as (st1 & Hall & _).
  exists st1. unfold write. rewrite Hall. cbn.
  destruct (Write (writer t) batch st1) as [[err st2] w]. cbn.
  assert (Hgrow : forall d,
    uint64 (d + uint64 (Z.of_nat (length batch)))
    = uint64 (d + Z.of_nat (length batch)) /\
    (0 <= d -> d + Z.of_nat (length batch) < 2 ^ 64 ->
     uint64 (d + uint64 (Z.of_nat (length batch)))
     = d + Z.of_nat (length batch))).
  { intros d. rewrite uint64_add_len. split; [done|]. intros Hd Hlt.
    unfold uint64. apply Z.mod_small. lia. }
  destruct err; eexists; (split; [reflexivity|]); (split; [reflexivity|]);
    (split; [reflexivity|]); cbn; (split; [apply Hgrow|done]).
Qed.

(** The theorem with a writer that fails and with a writer that
    succeeds, on a batch of two envelopes. *)
Lemma write_outcome_accounting_witness :
  let batch := [1%positive; 2%positive] in
  store_ok store0 /\
  live store0 batch /\
  (exists t' st', write (tx0 true) batch store0 = Some (t', st') /\
     pulseemitter.delta (droppedMetric t') = 2 /\
     pulseemitter.delta (egressMetric t') = 0 /\
     received (writer t') = [batch]) /\
  (exists t' st', write (tx0 false) batch store0 = Some (t', st') /\
     pulseemitter.delta (droppedMetric t') = 0 /\
     pulseemitter.delta (egressMetric t') = 2 /\
     received (writer t') = [batch]).
Proof.
  intros batch.
  assert (H1 : store_ok store0)
    by (apply (bool_decide_unpack _); vm_compute; exact I).
  assert (H2 : live store0 batch)
    by (apply (bool_decide_unpack _); vm_compute; exact I).
  split; [exact H1|]. split; [exact H2|]. split.
  - destruct (write_outcome_accounting _ _ (tx0 true) batch store0 H1 H2)
      as (st1 & t' & Hall & Hwrite & Hw & Hacc).
    exists t', (Write (writer (tx0 true)) batch st1).1.2.
    split; [exact Hwrite|]. cbn in Hacc. destruct Hacc as [[Hd _] He].
    split; [exact Hd|]. split; [by rewrite He|]. by rewrite Hw.
  - destruct (write_outcome_accounting _ _ (tx0 false) batch store0 H1 H2)
      as (st1 & t' & Hall & Hwrite & Hw & Hacc).
    exists t', (Write (writer (tx0 false)) batch st1).1.2.
    split; [exact Hwrite|]. cbn in Hacc. destruct Hacc as [[Hd _] He].
    split; [by rewrite He|]. split; [exact Hd|]. by rewrite Hw.
Defined.

End write_facts.

(** ** The consumer loop *)

Section consumer_loop.
Import loggregator_v2 egress heap fixtures.

(** A flush of the spec's batcher with a batch pending: the batch is
    tagged and handed to the writer in one call of [write], and the
    batcher starts a new, empty batch. *)
Lemma flush_pending_run {N W} `{Writer W} (t : Transponder N W)
    (p : pending) (st : Store) :
  batch p ≠ [] ->
  store_ok st ->
  live st (batch p) ->
  exists st1 t',
    addTags_all t (batch p) st = Some st1 /\
    write t (batch p) st = Some (t', (Write (writer t) (batch p) st1).1.2) /\
    writer t' = (Write (writer t) (batch p) st1).2 /\
    flush_pending writer_func p (t, st) =
    Some ({| size := size p; batch := [] |},
          (t', (Write (writer t) (batch p) st1).1.2)).
Proof.
  intros Hne Hok Hlive.
  destruct (addTags_all_frame t (batch p) st Hok Hlive) as (st1 & Hall & _).
  exists st1. unfold flush_pending, writer_func. cbn [fst snd].
  destruct (batch p) as [|l pend] eqn:Hp; [done|].
  unfold write. rewrite Hall. cbn.
  destruct (Write (writer t) (l :: pend) st1) as [[[err|] st2] w]; cbn;
    eexists; (split; [reflexivity|]); (split; [reflexivity|]);
    (split; reflexivity).
Qed.

(** C5.  One iteration of the consumer loop, from any state.

    For any batcher: if the poll finds the buffer empty, the loop calls
    the batcher's [Flush] and, once that returns, sleeps for
    100 milliseconds (100000000 ns), in that order, and does nothing else
    before polling again; if the poll yields an envelope, the loop hands
    it to the batcher's [Write] and does nothing else: it does not sleep.

    With the batcher as the spec describes it (on a well-formed store
    with no nil pointer pending): on an empty poll a pending batch is
    tagged and delivered to the writer in one [write], the batcher is
    left with an empty batch, and only then comes the sleep, while with
    nothing pending the writer is not called; on a poll that yields an
    envelope the envelope is appended to the current batch, which stays
    with the batcher unless that makes it reach the batch size, in which
    case it is delivered at once and a new batch is started; there is no
    sleep in either case. *)
Theorem Start_idle_behaviour {N W} `{Nexter N} `{Writer W} :
  100 * time.Millisecond = 100000000 /\
  (forall B (HB : Batcher B (Transponder N W * Store) Event) (s : Loop N W B),
      match TryNext (nexter (tx s)) with
      | (None, n) =>
          forall b' x',
            batcher_Flush writer_func (b s) (events s)
              (with_nexter n (tx s), heap s)
            = Some (b', x') ->
            Start_iteration s =
            Some {| tx := x'.1; b := b'; heap := x'.2;
                    events := events s
                      ++ [EvFlush; EvSleep (100 * time.Millisecond)] |}
      | (Some envelope, n) =>
          forall b' x',
            batcher_Write writer_func (b s) envelope (events s)
              (with_nexter n (tx s), heap s)
            = Some (b', x') ->
            Start_iteration s =
            Some {| tx := x'.1; b := b'; heap := x'.2;
                    events := events s ++ [EvBatcherWrite envelope] |}
      end) /\
  (forall s : Loop N W pending,
      let delivered (t : Transponder N W) (pend : list loc)
          (evs : list Event) : Prop :=
        store_ok (heap s) ->
        live (heap s) pend ->
        exists st1 t',
          addTags_all t pend (heap s) = Some st1 /\
          write t pend (heap s)
            = Some (t', (Write (writer t) pend st1).1.2) /\
          writer t' = (Write (writer t) pend st1).2 /\
          Start_iteration s =
          Some {| tx := t'; b := {| size := size (b s); batch := [] |};
                  heap := (Write (writer t) pend st1).1.2;
                  events := events s ++ evs |} in
      match TryNext (nexter (tx s)) with
      | (None, n) =>
          let t := with_nexter n (tx s) in
          let evs := [EvFlush; EvSleep (100 * time.Millisecond)] in
          match batch (b s) with
          | [] =>
              Start_iteration s =
              Some {| tx := t; b := b s; heap := heap s;
                      events := events s ++ evs |}
          | _ :: _ => delivered t (batch (b s)) evs
          end
      | (Some envelope, n) =>
          let t := with_nexter n (tx s) in
          let grown := batch (b s) ++ [envelope] in
          if bool_decide (size (b s) <= Z.of_nat (length grown))
          then delivered t grown [EvBatcherWrite envelope]
          else
            Start_iteration s =
            Some {| tx := t; b := {| size := size (b s); batch := grown |};
                    heap := heap s;
                    events := events s ++ [EvBatcherWrite envelope] |}
      end).
Proof.
  split; [reflexivity|]. split.
  - intros B HB s. unfold Start_iteration.
    destruct (TryNext (nexter (tx s))) as [[envelope|] n];
      intros b' [t' st'] ->; cbn; by rewrite <- ?app_assoc.
  - intros s delivered. subst delivered.
    destruct (TryNext (nexter (tx s))) as [[envelope|] n] eqn:Hnext;
      cbv zeta beta.
    + case_bool_decide as Hsize.
      * intros Hok Hlive.
        destruct (flush_pending_run (with_nexter n (tx s))
                    {| size := size (b s); batch := batch (b s) ++ [envelope] |}
                    (heap s)) as (st1 & t' & Hall & Hwrite & Hw & Hflush);
          [by destruct (batch (b s))|done..|].
        cbn [batch size] in *. exists st1, t'. repeat (split; [done|]).
        unfold Start_iteration. rewrite Hnext.
        cbn [batcher_Write pending_batcher size batch].
        rewrite bool_decide_eq_true_2 by done. by rewrite Hflush.
      * unfold Start_iteration. rewrite Hnext.
        cbn [batcher_Write pending_batcher size batch].
        by rewrite bool_decide_eq_false_2 by done.
    + destruct (batch (b s)) as [|l pend] eqn:Hp.
      * unfold Start_iteration. rewrite Hnext.
        cbn [batcher_Flush pending_batcher]. unfold flush_pending.
        rewrite Hp. cbn. by rewrite <- app_assoc.
      * intros Hok Hlive.
        destruct (flush_pending_run (with_nexter n (tx s)) (b s) (heap s))
          as (st1 & t' & Hall & Hwrite & Hw & Hflush);
          [by rewrite Hp|done|by rewrite Hp|].
        rewrite ?Hp in Hall, Hwrite, Hw, Hflush.
        exists st1, t'. repeat (split; [done|]).
        unfold Start_iteration. rewrite Hnext.
        cbn [batcher_Flush pending_batcher]. rewrite Hflush. cbn.
        by rewrite <- app_assoc.
Qed.

(** Over any number of iterations the loop only ever adds such blocks
    of events, one per poll. *)
Lemma Start_iterations_trace {N W B} `{Nexter N} `{Writer W}
    `{Batcher B (Transponder N W * Store) Event} k (s s' : Loop N W B) :
  Start_iterations k s = Some s' ->
  exists evs, events s' = events s ++ evs /\ poll_trace evs.
Proof.
  revert s. induction k as [|k IH]; intros s; cbn.
  { intros [= <-]. exists []. split; [by rewrite app_nil_r|constructor]. }
  destruct (Start_iteration s) as [s1|] eqn:Hs1; [|done]. cbn. intros Hk.
  destruct (IH s1 Hk) as (evs & -> & Hevs).
  unfold Start_iteration in Hs1.
  destruct (TryNext (nexter (tx s))) as [[envelope|] n].
  - destruct (batcher_Write _ _ _ _ _) as [[b' [t' st']]|]; [|done].
    injection Hs1 as <-. cbn. eexists. rewrite <- app_assoc.
    split; [reflexivity|]. cbn. by constructor.
  - destruct (batcher_Flush _ _ _ _) as [[b' [t' st']]|]; [|done].
    injection Hs1 as <-. cbn. eexists. rewrite <- !app_assoc.
    split; [reflexivity|]. cbn. by constructor.
Qed.

(** The theorem on an empty poll with an envelope pending, and on a poll
    that yields an envelope. *)
Lemma Start_idle_behaviour_witness :
  store_ok store0 /\
  live store0 [2%positive] /\
  (exists s',
      Start_iteration idle_loop = Some s' /\
      events s' =
      [EvBatcherWrite 2%positive; EvFlush; EvSleep 100000000] /\
      batch (b s') = [] /\
      received (writer (tx s')) = [[2%positive]]) /\
  (exists s',
      Start_iteration busy_loop = Some s' /\
      events s' = [EvBatcherWrite 1%positive] /\
      batch (b s') = [1%positive] /\
      received (writer (tx s')) = []).
Proof.
  assert (H1 : store_ok store0)
    by (apply (bool_decide_unpack _); vm_compute; exact I).
  assert (H2 : live store0 [2%positive])
    by (apply (bool_decide_unpack _); vm_compute; exact I).
  split; [exact H1|]. split; [exact H2|]. split.
  - pose proof (proj2 (proj2 (Start_idle_behaviour
                  (N := list (option loc)) (W := recorder))) idle_loop) as Hs.
    change (TryNext (nexter (tx idle_loop)))
      with (@None loc, @nil (option loc)) in Hs.
    change (batch (b idle_loop)) with [2%positive] in Hs.
    cbv beta iota zeta in Hs.
    destruct (Hs H1 H2) as (st1 & t' & Hall & Hwrite & Hw & Hiter).
    eexists. split; [exact Hiter|]. split; [reflexivity|].
    split; [reflexivity|]. cbn [tx]. rewrite Hw. reflexivity.
  - pose proof (proj2 (proj2 (Start_idle_behaviour
                  (N := list (option loc)) (W := recorder))) busy_loop) as Hs.
    change (TryNext (nexter (tx busy_loop)))
      with (Some 1%positive, [@None loc; Some 2%positive]) in Hs.
    change (batch (b busy_loop)) with (@nil loc) in Hs.
    change (size (b busy_loop)) with 100 in Hs.
    cbv beta iota zeta in Hs. cbn [app length] in Hs.
    rewrite bool_decide_eq_false_2 in Hs by (cbn; lia).
    eexists. split; [exact Hs|].
    split; [reflexivity|]. split; reflexivity.
Defined.

End consumer_loop.

(** ** The sender fetcher *)

(** Steps shared by the proofs about the fetcher. *)
Ltac case_status :=
  match goal with
  | |- context [grpc.status_FromError ?e] =>
      destruct e as [[[] ?|?]|]; cbn;
      rewrite ?bool_decide_eq_true_2, ?bool_decide_eq_false_2 by done; cbn
  end.

Ltac case_transport :=
  match goal with
  | |- context [match clientpoolv2.transport ?w ?h ?c with _ => _ end] =>
      destruct (clientpoolv2.transport w h c); cbn
  end.

Ltac run_M :=
  unfold clientpoolv2.BatchSender, clientpoolv2.CloseAndRecv;
  unfold clientpoolv2.ClientConn_Close, clientpoolv2.grpc_Dial;
  unfold clientpoolv2.log_Printf, clientpoolv2.on_health;
  unfold clientpoolv2.next_id, clientpoolv2.perform;
  unfold mbind, mret, clientpoolv2.M_bind, clientpoolv2.M_ret;
  cbn.

Section fetcher_facts.
Import clientpoolv2.
Context {H : Type}.
Implicit Types (w : World H) (c : grpc.ClientConn).

(** The world after one more call on the transport. *)
Lemma perform_run (call : Call) w :
  perform call w =
  (transport w (calls w) call,
   {| transport := transport w; calls := calls w ++ [call];
      health := health w; logs := logs w |}).
Proof. reflexivity. Qed.

Lemma status_unimplemented (err : option error) :
  (let '(s, ok) := grpc.status_FromError err in
   ok && bool_decide (s = codes.Unimplemented)) =
  match err with
  | Some (StatusError codes.Unimplemented _) => true
  | _ => false
  end.
Proof. destruct err as [[[] ?|?]|]; reflexivity. Qed.

(** [openStream], call by call: what it returns and the world it leaves,
    according to what the transport answers. *)
Lemma openStream_run c w :
  let open := CallBatchSender Ingress c in
  let legacy := CallBatchSender DopplerIngress c in
  let probe := {| api := Ingress; conn := c; stream_id := length (calls w) |} in
  let h1 := calls w ++ [open] in
  let h2 := h1 ++ [CallCloseAndRecv probe] in
  let after (last : Api) (answer : option error) (log : list string) :=
    (match answer with
     | Some e => (None, Some (establish_error e))
     | None =>
         (Some {| api := last; conn := c; stream_id := length h2 |}, None)
     end,
     {| transport := transport w; calls := h2 ++ [CallBatchSender last c];
        health := health w; logs := logs w ++ log |}) in
  openStream c w =
  match transport w (calls w) open with
  | Some e =>
      ((None, Some (establish_error e)),
       {| transport := transport w; calls := h1;
          health := health w; logs := logs w |})
  | None =>
      match transport w h1 (CallCloseAndRecv probe) with
      | Some (StatusError codes.Unimplemented _) =>
          after DopplerIngress (transport w h2 legacy)
            ["failed to open stream, falling back to deprecated API"]
      | _ => after Ingress (transport w h2 open) []
      end
  end.
Proof.
  unfold openStream. run_M.
  destruct (transport w (calls w) _); [done|]. cbn.
  case_status; case_transport; by rewrite ?app_nil_r.
Qed.

(** [openStream] talks to the transport and writes to the log; it leaves
    the health registrar alone and cannot change how the far side
    answers. *)
Lemma openStream_health c w : health (openStream c w).2 = health w.
Proof.
  rewrite openStream_run. cbv zeta.
  case_transport; [done|]. 
  destruct (transport w _ _) as [[[] ?|?]|]; done.
Qed.

Lemma openStream_transport c w : transport (openStream c w).2 = transport w.
Proof.
  rewrite openStream_run. cbv zeta.
  case_transport; [done|]. 
  destruct (transport w _ _) as [[[] ?|?]|]; done.
Qed.

(** A stream comes back exactly when no error does. *)
Lemma openStream_result c w :
  match (openStream c w).1 with
  | (Some _, None) | (None, Some _) => True
  | _ => False
  end.
Proof.
  rewrite openStream_run. cbv zeta.
  case_transport; [done|]. 
  destruct (transport w _ _) as [[[] ?|?]|]; cbn; case_transport; done.
Qed.

End fetcher_facts.

Section negotiation.
Import clientpoolv2 servers.

(** C2.  Protocol negotiation.  When the current-version stream opens,
    [openStream] makes exactly three calls on the connection: it opens the
    current-version stream (the probe), closes it at once with nothing
    sent on it, and opens one more stream, the one it returns.  That
    last stream is opened with the deprecated client when the probe's
    close reported status [Unimplemented] (so the current-version call is
    not made again), and with the current client for every other answer;
    in both cases it is a new stream, not the probe.  (If the last open
    fails, its error is returned instead of a stream.) *)
Theorem openStream_negotiation {H} (w : World H) (c : grpc.ClientConn) :
  let open := CallBatchSender Ingress c in
  let probe := {| api := Ingress; conn := c; stream_id := length (calls w) |} in
  let h1 := calls w ++ [open] in
  let h2 := h1 ++ [CallCloseAndRecv probe] in
  let last :=
    match transport w h1 (CallCloseAndRecv probe) with
    | Some (StatusError codes.Unimplemented _) => DopplerIngress
    | _ => Ingress
    end in
  transport w (calls w) open = None ->
  exists sender err w',
    openStream c w = ((sender, err), w') /\
    calls w' = calls w ++ [open; CallCloseAndRecv probe; CallBatchSender last c] /\
    match transport w h2 (CallBatchSender last c) with
    | None =>
        sender = Some {| api := last; conn := c; stream_id := length h2 |} /\
        err = None
    | Some e => sender = None /\ err = Some (establish_error e)
    end /\
    stream_id probe ≠ length h2.
Proof.
  intros open probe h1 h2 last Hopen.
  rewrite openStream_run. fold open probe h1 h2. rewrite Hopen. cbv zeta.
  assert (Hfresh : stream_id probe ≠ length h2).
  { subst h2 h1 probe. cbn. rewrite !length_app. cbn. lia. }
  assert (Hcalls : forall a, h2 ++ [CallBatchSender a c]
    = calls w ++ [open; CallCloseAndRecv probe; CallBatchSender a c]).
  { intros a. subst h2 h1. by rewrite <- !app_assoc. }
  subst last.
  destruct (transport w h1 (CallCloseAndRecv probe)) as [[[] ?|?]|]; cbn;
    destruct (transport w h2 _);
    eexists _, _, _; (split; [reflexivity|]); cbn;
    (split; [apply Hcalls|]); (split; [done|exact Hfresh]).
Qed.

(** The theorem against a downstream that only has the deprecated call,
    and against one that has the current call. *)
Lemma openStream_negotiation_witness :
  let c := {| grpc.conn_id := 0; grpc.target := "10.0.0.1:8082" |} in
  let probe := {| api := Ingress; conn := c; stream_id := 0 |} in
  (exists w',
      openStream c (world0 legacy_only) =
      ((Some {| api := DopplerIngress; conn := c; stream_id := 2 |}, None), w') /\
      calls w' = [CallBatchSender Ingress c; CallCloseAndRecv probe;
                  CallBatchSender DopplerIngress c]) /\
  (exists w',
      openStream c (world0 current) =
      ((Some {| api := Ingress; conn := c; stream_id := 2 |}, None), w') /\
      calls w' = [CallBatchSender Ingress c; CallCloseAndRecv probe;
                  CallBatchSender Ingress c]).
Proof.
  intros c probe. split.
  - destruct (openStream_negotiation (world0 legacy_only) c eq_refl)
      as (sender & err & w' & Hrun & Hcalls & Hres & _).
    cbn in Hres. destruct Hres as [-> ->]. by exists w'.
  - destruct (openStream_negotiation (world0 current) c eq_refl)
      as (sender & err & w' & Hrun & Hcalls & Hres & _).
    cbn in Hres. destruct Hres as [-> ->]. by exists w'.
Defined.

End negotiation.

Section fetch_facts.
Import clientpoolv2.
Context {H : Type} `{HealthRegistrar H}.
Implicit Types (w : World H) (p : SenderFetcher).

(** [Fetch], step by step. *)
Lemma Fetch_run p addr w :
  let dial := CallDial addr (opts p) in
  let conn := {| grpc.conn_id := length (calls w); grpc.target := addr |} in
  let w1 := {| transport := transport w; calls := calls w ++ [dial];
               health := health w; logs := logs w |} in
  Fetch p addr w =
  match transport w (calls w) dial with
  | Some e =>
      ((None, None,
        Some (ErrorString ("error dialing ingestor stream to " +:+ addr
                           +:+ ": " +:+ Error e))), w1)
  | None =>
      let '((sender, err), w2) := openStream conn w1 in
      match err with
      | Some e =>
          ((None, None, Some e),
           {| transport := transport w2;
              calls := calls w2 ++ [CallConnClose conn];
              health := health w2; logs := logs w2 |})
      | None =>
          ((Some {| closer := conn |}, sender, None),
           {| transport := transport w2; calls := calls w2;
              health := Inc "dopplerV2Streams"
                          (Inc "dopplerConnections" (health w2));
              logs := logs w2 ++
                ["successfully established a stream to doppler " +:+ addr] |})
      end
  end.
Proof.
  unfold Fetch. run_M. destruct (transport w (calls w) _); [done|].
  destruct (openStream _ _) as [[sender [err|]] w2]; done.
Qed.

(** What [Fetch] does to the registrar, whatever the registrar is: one
    [Inc] of each counter when it returns a closer, nothing otherwise. *)
Lemma Fetch_health p addr w :
  let '((c, s, err), w') := Fetch p addr w in
  health w' =
  match c with
  | Some _ => Inc "dopplerV2Streams" (Inc "dopplerConnections" (health w))
  | None => health w
  end.
Proof.
  rewrite Fetch_run. cbv zeta.
  destruct (transport w (calls w) _) as [e|]; [done|].
  match goal with
  | |- context [openStream ?c ?w1] =>
      pose proof (openStream_health c w1) as Hh;
      destruct (openStream c w1) as [[sender [err|]] w2]
  end; cbn in *; by rewrite Hh.
Qed.

Lemma Close_run (d : decrementingCloser) w :
  Close d w =
  (transport w (calls w) (CallConnClose (closer d)),
   {| transport := transport w;
      calls := calls w ++ [CallConnClose (closer d)];
      health := Dec "dopplerV2Streams" (Dec "dopplerConnections" (health w));
      logs := logs w |}).
Proof. reflexivity. Qed.

End fetch_facts.

Section fetch_errors.
Import clientpoolv2 servers.

(** C10.  Fetch error atomicity, for any health registrar.  If the dial
    fails, [Fetch] returns a nil closer, a nil stream and an error, having
    made no other call.  If the dial succeeds and [openStream] returns an
    error, [Fetch] closes the connection it just dialed, as its last call
    on the transport, and returns a nil closer, a nil stream and that
    error.  In both cases the health registrar is exactly as before:
    neither [Inc] nor [Dec] has been called. *)
Theorem Fetch_error_atomicity {H} `{HealthRegistrar H}
    (p : SenderFetcher) (addr : string) (w : World H) :
  let dial := CallDial addr (opts p) in
  let conn := {| grpc.conn_id := length (calls w); grpc.target := addr |} in
  let w1 := {| transport := transport w; calls := calls w ++ [dial];
               health := health w; logs := logs w |} in
  (forall e,
      transport w (calls w) dial = Some e ->
      exists err w',
        Fetch p addr w = ((None, None, Some err), w') /\
        health w' = health w /\
        calls w' = calls w ++ [dial]) /\
  (forall e,
      transport w (calls w) dial = None ->
      (openStream conn w1).1.2 = Some e ->
      exists w',
        Fetch p addr w = ((None, None, Some e), w') /\
        health w' = health w /\
        calls w' = calls (openStream conn w1).2 ++ [CallConnClose conn]).
Proof.
  intros dial conn w1. split.
  - intros e He. rewrite Fetch_run. fold dial. rewrite He.
    eexists _, _. split; [reflexivity|]. done.
  - intros e Hdial He. rewrite Fetch_run. fold dial conn w1. rewrite Hdial.
    pose proof (openStream_health conn w1) as Hh.
    destruct (openStream conn w1) as [[sender err] w2]. cbn in *. subst err.
    eexists. split; [reflexivity|]. done.
Qed.

(** The theorem against an address that cannot be dialed and against a
    connection on which no stream opens. *)
Lemma Fetch_error_atomicity_witness :
  let conn := {| grpc.conn_id := 0; grpc.target := "10.0.0.1:8082" |} in
  let dial := CallDial "10.0.0.1:8082" (opts fetcher0) in
  (exists err w',
      Fetch fetcher0 "10.0.0.1:8082" (world0 unreachable)
      = ((None, None, Some err), w') /\
      health w' = health (world0 unreachable) /\
      calls w' = [dial]) /\
  (exists err w',
      Fetch fetcher0 "10.0.0.1:8082" (world0 no_streams)
      = ((None, None, Some err), w') /\
      health w' = health (world0 no_streams) /\
      calls w' = [dial; CallBatchSender Ingress conn; CallConnClose conn]).
Proof.
  intros conn dial. split.
  - destruct (proj1 (Fetch_error_atomicity fetcher0 "10.0.0.1:8082"
                       (world0 unreachable)) _ eq_refl)
      as (err & w' & Hf & Hh & Hc).
    by exists err, w'.
  - destruct (proj2 (Fetch_error_atomicity fetcher0 "10.0.0.1:8082"
                       (world0 no_streams)) _ eq_refl eq_refl)
      as (w' & Hf & Hh & Hc).
    eexists _, w'. split; [exact Hf|]. split; [exact Hh|]. exact Hc.
Defined.

End fetch_errors.

Section health_accounting.
Import clientpoolv2 healthendpoint caller.
Implicit Types (w : World Registrar) (h : Registrar) (p : SenderFetcher).

Lemma value_Inc name name' h :
  value name (Inc name' h) = value name h + (if decide (name = name') then 1 else 0).
Proof.
  unfold value. cbn. destruct (decide (name = name')) as [->|Hne].
  - by rewrite lookup_insert_eq.
  - rewrite lookup_insert_ne by done. lia.
Qed.

Lemma value_Dec name name' h :
  value name (Dec name' h) = value name h - (if decide (name = name') then 1 else 0).
Proof.
  unfold value. cbn. destruct (decide (name = name')) as [->|Hne].
  - by rewrite lookup_insert_eq.
  - rewrite lookup_insert_ne by done. lia.
Qed.

Lemma Fetch_moves p addr w :
  let dial := CallDial addr (opts p) in
  let conn := {| grpc.conn_id := length (calls w); grpc.target := addr |} in
  let w1 := {| transport := transport w; calls := calls w ++ [dial];
               health := health w; logs := logs w |} in
  let '((c, s, err), w') := Fetch p addr w in
  match c with
  | Some _ =>
      transport w (calls w) dial = None /\
      (openStream conn w1).1.2 = None /\
      is_Some s /\ err = None /\ moved w w' 1
  | None => is_Some err /\ s = None /\ health w' = health w
  end.
Proof.
  intros dial conn w1. rewrite Fetch_run. fold dial conn w1.
  destruct (transport w (calls w) dial) as [e|]; [by eauto|].
  pose proof (openStream_health conn w1) as Hh.
  pose proof (openStream_result conn w1) as Hr.
  destruct (openStream conn w1) as [[[sender|] [err|]] w2];
    cbn in Hh, Hr; try done; try (by eauto).
  split; [done|]. split; [done|]. split; [by eauto|]. split; [done|].
  split; cbn [health]; rewrite !value_Inc, Hh; repeat case_decide;
    try lia; done.
Qed.

Lemma Close_moves (d : decrementingCloser) w : moved w (Close d w).2 (-1).
Proof.
  rewrite Close_run. split; cbn [health snd]; rewrite !value_Dec;
    repeat case_decide; try lia; done.
Qed.

Lemma run_moves p ops held w :
  let '(held', w') := run p ops held w in
  moved w w' (Z.of_nat (length held') - Z.of_nat (length held)).
Proof.
  revert held w. induction ops as [|o ops IH]; intros held w.
  { cbn. unfold moved. lia. }
  cbn [run]. unfold mbind, M_bind.
  destruct (step p o held w) as [held1 w1] eqn:Hstep.
  assert (Hone : moved w w1 (Z.of_nat (length held1) - Z.of_nat (length held))).
  { destruct o as [addr|i]; cbn in Hstep; unfold mbind, mret, M_bind, M_ret in Hstep.
    - pose proof (Fetch_moves p addr w) as HF. cbv zeta in HF.
      destruct (Fetch p addr w) as [[[[c|] s] err] w']; inversion Hstep; subst.
      + destruct HF as (_ & _ & _ & _ & [? ?]).
        rewrite length_app. cbn. split; lia.
      + destruct HF as (_ & _ & HF). unfold moved. rewrite HF. lia.
    - destruct (held !! i) as [c|] eqn:Hi.
      + pose proof (Close_moves c w) as HC.
        destruct (Close c w) as [e w']. inversion Hstep; subst.
        assert (Hlen : length (delete i held) = (length held - 1)%nat)
          by (apply length_delete; eauto).
        apply lookup_lt_Some in Hi. destruct HC. cbn in *. split; lia.
      + inversion Hstep; subst. unfold moved. lia. }
  specialize (IH held1 w1). destruct (run p ops held1 w1) as [held' w'].
  destruct Hone, IH. split; lia.
Qed.

(** [Fetch] from what the transport answers: once the dial and the stream
    open have succeeded it hands out a closer on the dialed connection
    and a stream, with one [Inc] of each counter; when either fails it
    hands out nothing and leaves the registrar alone. *)
Lemma Fetch_forward {H} `{HealthRegistrar H} p addr (w : World H) :
  let dial := CallDial addr (opts p) in
  let conn := {| grpc.conn_id := length (calls w); grpc.target := addr |} in
  let w1 := {| transport := transport w; calls := calls w ++ [dial];
               health := health w; logs := logs w |} in
  match transport w (calls w) dial, (openStream conn w1).1.2 with
  | None, None =>
      exists s (w' : World H),
        Fetch p addr w = ((Some {| closer := conn |}, Some s, None), w') /\
        health w' =
          Inc "dopplerV2Streams" (Inc "dopplerConnections" (health w))
  | None, Some e =>
      exists w' : World H,
        Fetch p addr w = ((None, None, Some e), w') /\ health w' = health w
  | Some _, _ =>
      exists err (w' : World H),
        Fetch p addr w = ((None, None, Some err), w') /\ health w' = health w
  end.
Proof.
  intros dial conn w1. rewrite Fetch_run. fold dial conn w1.
  destruct (transport w (calls w) dial) as [e|]; [by eauto|].
  pose proof (openStream_health conn w1) as Hh.
  pose proof (openStream_result conn w1) as Hr.
  destruct (openStream conn w1) as [[[sender|] [err|]] w2];
    cbn in Hh, Hr |- *; try done.
  - eexists _, _. split; [reflexivity|]. cbn. by rewrite Hh.
  - eexists. split; [reflexivity|]. done.
Qed.

(** C3.  Health-counter balance.  For any registrar: when the dial
    succeeds and the stream open succeeds, [Fetch] returns a closer on
    the dialed connection and a stream, having called [Inc] once for each
    of the two counters; when the dial succeeds and the stream open fails,
    or the dial fails, it returns no closer and has made no call on the
    registrar.  Conversely a [Fetch] that
    returns a closer has called [Inc] once for each of the two counters
    and made no other call on the registrar, a [Fetch] that returns no
    closer has made none, and closing a closer calls [Dec] once for each
    of the two.  With the registrar read as named integer counters:
    a [Fetch] that returns a closer has seen the dial
    and the stream open succeed, returns a stream and no error, and
    leaves both counters one higher; a [Fetch] that returns no closer
    returns an error and leaves the registrar as it was.  Closing a
    closer leaves both counters one lower.  Hence over any sequence of
    fetches and closes by a caller that closes each closer it was given
    at most once, both counters move by the number of closers still held
    at the end minus the number held at the start: when every closer has
    been closed they are back at their values before the sequence. *)
Theorem health_counters_balance p :
  (forall H (reg : HealthRegistrar H) addr (w : World H),
      let dial := CallDial addr (opts p) in
      let conn := {| grpc.conn_id := length (calls w); grpc.target := addr |} in
      let w1 := {| transport := transport w; calls := calls w ++ [dial];
                   health := health w; logs := logs w |} in
      transport w (calls w) dial = None ->
      (openStream conn w1).1.2 = None ->
      exists s (w' : World H),
        Fetch p addr w = ((Some {| closer := conn |}, Some s, None), w') /\
        health w' =
          Inc "dopplerV2Streams" (Inc "dopplerConnections" (health w))) /\
  (forall addr (w : World Registrar),
      let dial := CallDial addr (opts p) in
      let conn := {| grpc.conn_id := length (calls w); grpc.target := addr |} in
      let w1 := {| transport := transport w; calls := calls w ++ [dial];
                   health := health w; logs := logs w |} in
      transport w (calls w) dial = None ->
      (openStream conn w1).1.2 = None ->
      exists s w',
        Fetch p addr w = ((Some {| closer := conn |}, Some s, None), w') /\
        value "dopplerConnections" (health w') =
          value "dopplerConnections" (health w) + 1 /\
        value "dopplerV2Streams" (health w') =
          value "dopplerV2Streams" (health w) + 1) /\
  (forall H (reg : HealthRegistrar H) addr (w : World H) e,
      let dial := CallDial addr (opts p) in
      let conn := {| grpc.conn_id := length (calls w); grpc.target := addr |} in
      let w1 := {| transport := transport w; calls := calls w ++ [dial];
                   health := health w; logs := logs w |} in
      (transport w (calls w) dial = Some e \/
       (transport w (calls w) dial = None /\
        (openStream conn w1).1.2 = Some e)) ->
      exists err (w' : World H),
        Fetch p addr w = ((None, None, Some err), w') /\
        health w' = health w) /\
  (forall H (reg : HealthRegistrar H) addr (w : World H),
      let '((c, s, err), w') := Fetch p addr w in
      health w' =
      match c with
      | Some _ => Inc "dopplerV2Streams" (Inc "dopplerConnections" (health w))
      | None => health w
      end) /\
  (forall H (reg : HealthRegistrar H) d (w : World H),
      health (Close d w).2 =
      Dec "dopplerV2Streams" (Dec "dopplerConnections" (health w))) /\
  (forall addr w,
      let dial := CallDial addr (opts p) in
      let conn := {| grpc.conn_id := length (calls w); grpc.target := addr |} in
      let w1 := {| transport := transport w; calls := calls w ++ [dial];
                   health := health w; logs := logs w |} in
      let '((c, s, err), w') := Fetch p addr w in
      match c with
      | Some _ =>
          transport w (calls w) dial = None /\
          (openStream conn w1).1.2 = None /\
          is_Some s /\ err = None /\
          value "dopplerConnections" (health w') =
            value "dopplerConnections" (health w) + 1 /\
          value "dopplerV2Streams" (health w') =
            value "dopplerV2Streams" (health w) + 1
      | None => is_Some err /\ s = None /\ health w' = health w
      end) /\
  (forall d w,
      let w' := (Close d w).2 in
      value "dopplerConnections" (health w') =
        value "dopplerConnections" (health w) - 1 /\
      value "dopplerV2Streams" (health w') =
        value "dopplerV2Streams" (health w) - 1) /\
  (forall ops held w,
      let '(held', w') := run p ops held w in
      let d := Z.of_nat (length held') - Z.of_nat (length held) in
      value "dopplerConnections" (health w') =
        value "dopplerConnections" (health w) + d /\
      value "dopplerV2Streams" (health w') =
        value "dopplerV2Streams" (health w) + d) /\
  (forall ops w w',
      run p ops [] w = ([], w') ->
      value "dopplerConnections" (health w') =
        value "dopplerConnections" (health w) /\
      value "dopplerV2Streams" (health w') =
        value "dopplerV2Streams" (health w)).
Proof.
  split; [|split; [|split; [|split; [|split; [|split; [|split; [|split]]]]]]].
  - intros H reg addr w dial conn w1 Hdial Hopen.
    pose proof (Fetch_forward p addr w) as HF. cbv zeta in HF.
    fold dial conn w1 in HF. by rewrite Hdial, Hopen in HF.
  - intros addr w dial conn w1 Hdial Hopen.
    pose proof (Fetch_forward p addr w) as HF. cbv zeta in HF.
    fold dial conn w1 in HF. rewrite Hdial, Hopen in HF.
    destruct HF as (s & w' & HF & Hh). exists s, w'. split; [exact HF|].
    rewrite Hh, !value_Inc. split; repeat case_decide; try lia; done.
  - intros H reg addr w e dial conn w1 Hfail.
    pose proof (Fetch_forward p addr w) as HF. cbv zeta in HF.
    fold dial conn w1 in HF.
    destruct Hfail as [Hdial|[Hdial Hopen]].
    + rewrite Hdial in HF. exact HF.
    + rewrite Hdial, Hopen in HF. destruct HF as (w' & HF & Hh). eauto.
  - intros H reg addr w. apply Fetch_health.
  - intros H reg d w. by rewrite Close_run.
  - intros addr w. apply Fetch_moves.
  - intros d w. apply Close_moves.
  - intros ops held w. apply run_moves.
  - intros ops w w' Hrun. pose proof (run_moves p ops [] w) as Hm.
    rewrite Hrun in Hm. destruct Hm. cbn in *. split; lia.
Qed.

End health_accounting.

Section health_accounting_witness.
Import clientpoolv2 healthendpoint caller servers.

(** The theorem on one fetch against a downstream that has the current
    call, which raises both counters from 2 to 3; on a fetch against a
    connection on which no stream opens, which leaves them at 2; and on
    two fetches followed by the two closes, which ends where it began. *)
Lemma health_counters_balance_witness :
  let ops := [DoFetch "10.0.0.1:8082"; DoFetch "10.0.0.2:8082";
              DoClose 1; DoClose 0] in
  (exists s w',
      Fetch fetcher0 "10.0.0.1:8082" (world0 current)
      = ((Some {| closer := {| grpc.conn_id := 0;
                               grpc.target := "10.0.0.1:8082" |} |},
          Some s, None), w') /\
      value "dopplerConnections" (health w') = 3 /\
      value "dopplerV2Streams" (health w') = 3) /\
  (exists err w',
      Fetch fetcher0 "10.0.0.1:8082" (world0 no_streams)
      = ((None, None, Some err), w') /\
      value "dopplerConnections" (health w') = 2 /\
      value "dopplerV2Streams" (health w') = 2) /\
  exists w',
    run fetcher0 ops [] (world0 current) = ([], w') /\
    value "dopplerConnections" (health w') = 2 /\
    value "dopplerV2Streams" (health w') = 2.
Proof.
  intros ops. split; [|split].
  - exact (proj1 (proj2 (health_counters_balance fetcher0))
             "10.0.0.1:8082" (world0 current) eq_refl eq_refl).
  - destruct (proj1 (proj2 (proj2 (health_counters_balance fetcher0)))
                _ _ "10.0.0.1:8082" (world0 no_streams) _
                (or_intror (conj eq_refl eq_refl)))
      as (err & w' & HF & Hh).
    exists err, w'. split; [exact HF|]. by rewrite Hh.
  - assert (Hheld : (run fetcher0 ops [] (world0 current)).1 = [])
      by (lazy; reflexivity).
    destruct (run fetcher0 ops [] (world0 current)) as [held w'] eqn:Hrun.
    cbn in Hheld. subst held. exists w'. split; [reflexivity|].
    exact (proj2 (proj2 (proj2 (proj2 (proj2 (proj2 (proj2 (proj2
             (health_counters_balance fetcher0))))))))
             ops (world0 current) w' Hrun).
Defined.

End health_accounting_witness.

(** ** The pool *)

Section pool.
Import app app_fixtures.
Context {R : Type} `{rand.Source R}.

(** The manager loop appends one manager per draw, in order. *)
Lemma make_managers_spec k connector acc (r : R) :
  (make_managers k connector acc r).1 =
  acc ++ (manager_of connector <$> draws k r).
Proof.
  revert acc r. induction k as [|k IH]; intros acc r; cbn.
  { by rewrite app_nil_r. }
  destruct (rand.Int63n 1000 r) as [v r']. rewrite IH.
  by rewrite <- app_assoc.
Qed.

Lemma draws_length k (r : R) : length (draws k r) = k.
Proof.
  revert r. induction k as [|k IH]; intros r; cbn; [done|].
  destruct (rand.Int63n 1000 r) as [v r']. cbn. by rewrite IH.
Qed.

Lemma draws_in_range `{!rand.SourceInRange R} k (r : R) :
  Forall (fun v => 0 <= v < 1000) (draws k r).
Proof.
  revert r. induction k as [|k IH]; intros r; cbn; [done|].
  pose proof (rand.Int63n_range 1000 r ltac:(lia)) as Hv.
  destruct (rand.Int63n 1000 r) as [v r']. constructor; [done|apply IH].
Qed.

Lemma int64_small z : - 2 ^ 63 <= z < 2 ^ 63 -> int64 z = z.
Proof. intros Hz. unfold int64. rewrite Z.mod_small; lia. Qed.

(** The pool that [initializePool] builds when the client credentials
    are there. *)
Lemma initializePool_spec (a : AppV2) (r : R) creds :
  clientCreds a = Some creds ->
  exists connector r',
    initializePool a r = (Ok (New (manager_of connector <$> draws 5 r)), r') /\
    balancers connector =
      (if bool_decide (RouterAddrWithAZ (config a) ≠ "")
       then [NewBalancer (RouterAddrWithAZ (config a)) (lookup a)]
       else []) ++ [NewBalancer (RouterAddr (config a)) (lookup a)].
Proof.
  intros Hc. unfold initializePool. rewrite Hc.
  match goal with
  | |- context [make_managers 5 ?c [] r] =>
      pose proof (make_managers_spec 5 c [] r) as Hm;
      destruct (make_managers 5 c [] r) as [ms r'];
      exists c, r'
  end.
  cbn [fst] in Hm. subst ms. split; [done|]. cbn.
  by case_bool_decide.
Qed.

End pool.

Section pool_construction.
Import app app_fixtures.

(** C6.  Zone-preferred balancing.  With client credentials present,
    [initializePool] returns a pool, and every manager of the pool shares
    a connector whose balancers are: the balancer of the zone-scoped
    address followed by the balancer of the general address when the
    zone-scoped address is not the empty string; the balancer of the
    general address alone when it is.  So the general-purpose balancer is
    always there, and always last. *)
Theorem initializePool_zone_first {R} `{rand.Source R}
    (a : AppV2) (r : R) creds :
  clientCreds a = Some creds ->
  let zone := NewBalancer (RouterAddrWithAZ (config a)) (lookup a) in
  let general := NewBalancer (RouterAddr (config a)) (lookup a) in
  exists pool r',
    initializePool a r = (Ok pool, r') /\
    conns pool ≠ [] /\
    forall m, m ∈ conns pool ->
      balancers (connector m) =
        (if bool_decide (RouterAddrWithAZ (config a) = "")
         then [general] else [zone; general]) /\
      last (balancers (connector m)) = Some general.
Proof.
  intros Hc zone general.
  destruct (initializePool_spec a r creds Hc) as (c & r' & -> & Hb).
  eexists _, _. split; [reflexivity|]. cbn [conns New]. split.
  { intros Hnil. apply (f_equal length) in Hnil.
    rewrite length_fmap, draws_length in Hnil. done. }
  intros m [v [-> _]]%list_elem_of_fmap. cbn. rewrite Hb.
  fold zone general. case_bool_decide as Haz.
  - rewrite bool_decide_eq_false_2 by (by intros ?). done.
  - rewrite bool_decide_eq_true_2 by done. done.
Qed.

(** The theorem with and without a zone-scoped address. *)
Lemma initializePool_zone_first_witness :
  let zone := NewBalancer "z1.doppler.service.cf.internal:8082" no_lookup in
  let general := NewBalancer "doppler.service.cf.internal:8082" no_lookup in
  (exists pool r',
      initializePool (app0 "z1.doppler.service.cf.internal:8082") 42
      = (Ok pool, r') /\
      forall m, m ∈ conns pool -> balancers (connector m) = [zone; general]) /\
  (exists pool r',
      initializePool (app0 "") 42 = (Ok pool, r') /\
      forall m, m ∈ conns pool -> balancers (connector m) = [general]).
Proof.
  intros zone general. split.
  - destruct (initializePool_zone_first (R := Z)
                (app0 "z1.doppler.service.cf.internal:8082") 42 _ eq_refl)
      as (pool & r' & Hp & _ & Hb).
    exists pool, r'. split; [exact Hp|]. intros m Hm. exact (proj1 (Hb m Hm)).
  - destruct (initializePool_zone_first (R := Z) (app0 "") 42 _ eq_refl)
      as (pool & r' & Hp & _ & Hb).
    exists pool, r'. split; [exact Hp|]. intros m Hm. exact (proj1 (Hb m Hm)).
Defined.

(** C7.  Randomized rotation budget.  With client credentials present
    and a random source that keeps the contract of [Int63n],
    [initializePool] returns a pool of exactly five managers; the
    message-count ceiling of the i-th manager is 100000 plus the i-th
    offset drawn, each offset being a draw of its own from 0 up to but
    not including 1000; so every ceiling lies between 100000 and 100999;
    and every manager is given one second (1000000000 ns) as its
    duration. *)
Theorem initializePool_rotation_budget {R} {src : rand.Source R}
    {in_range : rand.SourceInRange R} (a : AppV2) (r : R) creds :
  clientCreds a = Some creds ->
  exists pool r',
    initializePool a r = (Ok pool, r') /\
    length (conns pool) = 5%nat /\
    maxWrites <$> conns pool = (fun v => 100000 + v) <$> draws 5 r /\
    Forall (fun v => 0 <= v < 1000) (draws 5 r) /\
    Forall (fun m => 100000 <= maxWrites m <= 100999 /\
                     refreshFloor m = time.Second) (conns pool) /\
    time.Second = 1000000000.
Proof.
  intros Hc.
  destruct (initializePool_spec a r creds Hc) as (c & r' & -> & _).
  pose proof (draws_in_range 5 r) as Hrange.
  eexists _, _. split; [reflexivity|]. cbn [conns New].
  split; [by rewrite length_fmap, draws_length|].
  split; [|split; [done|split; [|done]]].
  - rewrite <- list_fmap_compose. apply Forall_fmap_ext_1.
    eapply Forall_impl; [exact Hrange|]. intros v Hv. cbn in Hv |- *.
    apply int64_small. lia.
  - apply Forall_fmap. eapply Forall_impl; [exact Hrange|].
    intros v Hv. cbn in Hv |- *. rewrite int64_small by lia.
    split; [lia|done].
Qed.

(** The generator of the fixtures keeps the contract of [Int63n]. *)
Lemma lcg_in_range : rand.SourceInRange Z.
Proof.
  intros n seed Hn. unfold rand.Int63n, lcg.source. cbn [fst].
  apply Z.mod_pos_bound. exact Hn.
Defined.

(** The theorem with that generator. *)
Lemma initializePool_rotation_budget_witness :
  clientCreds (app0 "") = Some (grpc.TLS "agent") /\
  exists pool r',
    initializePool (app0 "") 42 = (Ok pool, r') /\
    length (conns pool) = 5%nat /\
    maxWrites <$> conns pool = (fun v => 100000 + v) <$> draws 5 42 /\
    Forall (fun v => 0 <= v < 1000) (draws 5 42) /\
    Forall (fun m => 100000 <= maxWrites m <= 100999 /\
                     refreshFloor m = time.Second) (conns pool) /\
    time.Second = 1000000000.
Proof.
  split; [reflexivity|].
  exact (initializePool_rotation_budget (in_range := lcg_in_range)
           (app0 "") 42 (grpc.TLS "agent") eq_refl).
Defined.

End pool_construction.

(** * Further properties *)

(** ** Tag normalization, continued *)

Section addTags_more.
Import loggregator_v2 egress heap fixtures more_fixtures.
Implicit Types (st : Store) (e : Envelope) (l : loc).

Lemma normalized_again (T S : gmap string string) (old : gmap string Value) :
  let m := (Value_Text <$> T) ∪ old ∪ (Value_Text <$> S) in
  (Value_Text <$> T) ∪ m ∪ (Value_Text <$> S) = m.
Proof.
  intros m. apply map_eq. intros k. subst m.
  rewrite !lookup_union, !lookup_fmap.
  destruct (T !! k), (old !! k), (S !! k); done.
Qed.

(** X1.  Tag normalization is idempotent: running [addTags] a second
    time on the same envelope leaves the store exactly as the first run
    left it.  (A batch may name the same envelope twice.) *)
Theorem addTags_idempotent N W (t : Transponder N W) st l st' :
  is_Some (envs st !! l) ->
  store_ok st ->
  addTags t l st = Some st' ->
  addTags t l st' = Some st'.
Proof.
  intros [e Hl] Hok Hadd.
  destruct (addTags_spec t st l e Hl) as (r & Hr & Hst'); [by eapply Hok|].
  rewrite Hadd in Hst'. injection Hst' as ->.
  set (e' := with_DeprecatedTags (Some r) e).
  set (m := (Value_Text <$> Tags e) ∪ deprecated_tags st e
              ∪ (Value_Text <$> tags t)).
  destruct (addTags_spec t
              {| envs := <[l := e']> (envs st); tagmaps := <[r := m]> (tagmaps st) |}
              l e') as (r' & Hr' & ->).
  { cbn. by rewrite lookup_insert_eq. }
  { unfold allocated. cbn. rewrite lookup_insert_eq. eauto. }
  cbn in Hr'. subst r'. f_equal. cbn [envs tagmaps]. f_equal.
  - rewrite insert_insert_eq. done.
  - rewrite insert_insert_eq. f_equal.
    unfold deprecated_tags at 1. cbn. rewrite lookup_insert_eq. cbn.
    apply normalized_again.
Qed.

Lemma addTags_idempotent_witness :
  is_Some (envs store0 !! 2%positive) /\
  store_ok store0 /\
  exists st',
    addTags (tx0 false) 2%positive store0 = Some st' /\
    addTags (tx0 false) 2%positive st' = Some st'.
Proof.
  assert (H1 : is_Some (envs store0 !! 2%positive)) by (eexists; reflexivity).
  assert (H2 : store_ok store0)
    by (apply (bool_decide_unpack _); vm_compute; exact I).
  split; [exact H1|]. split; [exact H2|].
  destruct (addTags (tx0 false) 2%positive store0) as [st'|] eqn:Hadd.
  - exists st'. split; [reflexivity|].
    exact (addTags_idempotent _ _ (tx0 false) store0 2%positive st' H1 H2 Hadd).
  - exfalso.
    assert (Hsome : is_Some (addTags (tx0 false) 2%positive store0))
      by (eexists; reflexivity).
    rewrite Hadd in Hsome. by destruct Hsome.
Defined.

(** X2.  What [addTags] on one envelope does to the deprecated tags of
    the others.  An envelope that shares the map of the tagged envelope
    reads the same, normalized, map afterwards; every other envelope
    reads exactly what it read before (a map made for a nil field is
    new, so nobody else has it). *)
Theorem addTags_other_envelopes N W (t : Transponder N W) st l e st' :
  store_ok st ->
  envs st !! l = Some e ->
  addTags t l st = Some st' ->
  forall l' e',
    l' ≠ l ->
    envs st !! l' = Some e' ->
    if bool_decide (is_Some (DeprecatedTags e) /\
                    DeprecatedTags e' = DeprecatedTags e)
    then deprecated_tags_at st' l' = deprecated_tags_at st' l
    else deprecated_tags_at st' l' = deprecated_tags_at st l'.
Proof.
  intros Hok Hl Hadd l' e' Hne Hl'.
  destruct (addTags_spec t st l e Hl) as (r & Hr & Hst'); [by eapply Hok|].
  rewrite Hadd in Hst'. injection Hst' as ->.
  unfold deprecated_tags_at. cbn.
  rewrite lookup_insert_eq, lookup_insert_ne, Hl' by done. cbn.
  pose proof (Hok l' e' Hl') as Ha'. unfold allocated in Ha'.
  case_bool_decide as Hshare.
  - destruct Hshare as [[r0 Hr0] He']. rewrite Hr0 in Hr, He'. subst r0.
    rewrite He'. cbn. done.
  - destruct (DeprecatedTags e') as [r'|] eqn:He'; cbn; [|done].
    rewrite lookup_insert_ne; [done|]. intros <-.
    destruct (DeprecatedTags e) as [r0|] eqn:He.
    + subst r0. apply Hshare. eauto.
    + subst r. rewrite fresh_mapref in Ha'. by destruct Ha'.
Qed.

Lemma addTags_other_envelopes_witness :
  store_ok shared_store /\
  envs shared_store !! 1%positive = Some shared1 /\
  exists st',
    addTags (tx0 false) 1%positive shared_store = Some st' /\
    deprecated_tags_at st' 2%positive = deprecated_tags_at st' 1%positive /\
    deprecated_tags_at st' 3%positive = deprecated_tags_at shared_store 3%positive.
Proof.
  assert (H1 : store_ok shared_store)
    by (apply (bool_decide_unpack _); vm_compute; exact I).
  assert (H2 : envs shared_store !! 1%positive = Some shared1) by reflexivity.
  split; [exact H1|]. split; [exact H2|].
  destruct (addTags (tx0 false) 1%positive shared_store) as [st'|] eqn:Hadd.
  - exists st'. split; [reflexivity|].
    pose proof (addTags_other_envelopes _ _ (tx0 false) shared_store
                  1%positive shared1 st' H1 H2 Hadd) as Hothers.
    split.
    + exact (Hothers 2%positive shared2 ltac:(discriminate) eq_refl).
    + exact (Hothers 3%positive apart ltac:(discriminate) eq_refl).
  - exfalso.
    assert (Hsome : is_Some (addTags (tx0 false) 1%positive shared_store))
      by (eexists; reflexivity).
    rewrite Hadd in Hsome. by destruct Hsome.
Defined.

End addTags_more.

(** ** The write path, continued *)

Section write_more.
Import loggregator_v2 egress heap flushes fixtures more_fixtures.
Implicit Types (st : Store) (e : Envelope) (l : loc) (batch : list loc).


Lemma addTags_nil {N W} (t : Transponder N W) st l :
  envs st !! l = None -> addTags t l st = None.
Proof. intros Hl. unfold addTags. by rewrite Hl. Qed.




(** [addTags] never takes a key away from a map an envelope already
    reads. *)
Lemma addTags_keeps_keys {N W} (t : Transponder N W) st l st' l' m :
  store_ok st ->
  is_Some (envs st !! l) ->
  addTags t l st = Some st' ->
  deprecated_tags_at st l' = Some m ->
  exists m', deprecated_tags_at st' l' = Some m' /\ dom m ⊆ dom m'.
Proof.
  intros Hok [e Hl] Hadd Hm.
  destruct (addTags_spec t st l e Hl) as (r & Hr & Hst'); [by eapply Hok|].
  rewrite Hadd in Hst'. injection Hst' as ->.
  unfold deprecated_tags_at in *. cbn.
  destruct (envs st !! l') as [e'|] eqn:Hl'; [|done]. cbn in Hm.
  destruct (DeprecatedTags e') as [r'|] eqn:He'; [|done]. cbn in Hm.
  assert (Hgrow : dom m ⊆ dom (<[r := (Value_Text <$> Tags e)
            ∪ deprecated_tags st e ∪ (Value_Text <$> tags t)]> (tagmaps st)
            !!! r') /\ is_Some (<[r := (Value_Text <$> Tags e)
            ∪ deprecated_tags st e ∪ (Value_Text <$> tags t)]> (tagmaps st)
            !! r')).
  { destruct (decide (r = r')) as [<-|Hrr'].
    - rewrite lookup_total_insert_eq, lookup_insert_eq. split; [|eauto].
      assert (Hold : deprecated_tags st e = m).
      { unfold deprecated_tags. destruct (DeprecatedTags e) as [r0|].
        - subst r0. by rewrite Hm.
        - subst r. by rewrite fresh_mapref in Hm. }
      rewrite Hold, !dom_union_L. set_solver.
    - rewrite lookup_total_insert_ne, lookup_insert_ne by done.
      rewrite (lookup_total_correct _ _ _ Hm). split; [done|eauto]. }
  destruct Hgrow as [Hsub [m' Hm']].
  rewrite (lookup_total_correct _ _ _ Hm') in Hsub.
  destruct (decide (l = l')) as [<-|Hll'].
  - rewrite lookup_insert_eq. cbn.
    assert (r = r') as <-.
    { rewrite Hl in Hl'. injection Hl' as <-. rewrite He' in Hr. done. }
    eauto.
  - rewrite lookup_insert_ne, Hl' by done. cbn. rewrite He'. cbn. eauto.
Qed.

Lemma addTags_all_keeps_keys {N W} (t : Transponder N W) batch st st' l' m :
  store_ok st ->
  addTags_all t batch st = Some st' ->
  deprecated_tags_at st l' = Some m ->
  exists m', deprecated_tags_at st' l' = Some m' /\ dom m ⊆ dom m'.
Proof.
  revert st m. induction batch as [|l batch IH]; intros st m Hok Hall Hm.
  { injection Hall as <-. eauto. }
  cbn in Hall. destruct (envs st !! l) as [e|] eqn:Hl.
  - destruct (addTags_frame t st l Hok) as (st1 & Hadd & Hok1 & _).
    { by rewrite Hl. }
    rewrite Hadd in Hall. cbn in Hall.
    destruct (addTags_keeps_keys t st l st1 l' m) as (m1 & Hm1 & Hsub1);
      [done|by rewrite Hl|done..|].
    destruct (IH st1 m1 Hok1 Hall Hm1) as (m2 & Hm2 & Hsub2).
    exists m2. split; [done|]. set_solver.
  - by rewrite addTags_nil in Hall.
Qed.

(** Right after [addTags], the envelope's map has all the keys. *)
Lemma addTags_own_keys {N W} (t : Transponder N W) st l e st' :
  store_ok st ->
  envs st !! l = Some e ->
  addTags t l st = Some st' ->
  exists m,
    deprecated_tags_at st' l = Some m /\
    dom (Tags e) ∪ dom (tags t) ⊆ dom m.
Proof.
  intros Hok Hl Hadd.
  destruct (addTags_spec t st l e Hl) as (r & Hr & Hst'); [by eapply Hok|].
  rewrite Hadd in Hst'. injection Hst' as ->.
  eexists. unfold deprecated_tags_at. cbn. rewrite lookup_insert_eq. cbn.
  rewrite lookup_insert_eq. split; [done|].
  rewrite !dom_union_L, !dom_fmap_L. intros k. rewrite !elem_of_union. tauto.
Qed.

(** X4.  What the writer is handed.  When the tagging loop is through,
    every envelope of the batch has a non-nil deprecated-tag map, and
    that map has an entry for each of the envelope's structured tags and
    for each static tag, even when envelopes of the batch share maps or
    the batch names an envelope more than once. *)
Theorem write_hands_over_tagged N W (t : Transponder N W) batch st st1 :
  store_ok st ->
  addTags_all t batch st = Some st1 ->
  forall l e,
    l ∈ batch ->
    envs st !! l = Some e ->
    exists m,
      deprecated_tags_at st1 l = Some m /\
      dom (Tags e) ∪ dom (tags t) ⊆ dom m.
Proof.
  revert st. induction batch as [|l0 batch IH]; intros st Hok Hall l e Hin Hl.
  { by apply elem_of_nil in Hin. }
  cbn in Hall. destruct (envs st !! l0) as [e0|] eqn:Hl0;
    [|by rewrite addTags_nil in Hall].
  destruct (addTags_frame t st l0 Hok) as (st' & Hadd & Hok' & Hsame & _).
  { by rewrite Hl0. }
  rewrite Hadd in Hall. cbn in Hall.
  destruct (decide (l ∈ batch)) as [Hrest|Hrest].
  - pose proof (Hsame l) as Hl'. rewrite Hl in Hl'.
    inversion Hl' as [? e' (_ & _ & _ & HT & _) Heq1 Heq2|]; subst.
    destruct (IH st' Hok' Hall l e' Hrest) as (m & Hm & Hsub); [done|].
    exists m. split; [done|]. by rewrite <- HT.
  - apply elem_of_cons in Hin as [->|Hin]; [|done].
    rewrite Hl in Hl0. injection Hl0 as <-.
    destruct (addTags_own_keys t st l0 e st' Hok Hl Hadd)
      as (m & Hm & Hsub).
    destruct (addTags_all_keeps_keys t batch st' st1 l0 m Hok' Hall Hm)
      as (m1 & Hm1 & Hsub1).
    exists m1. split; [done|]. by etrans.
Qed.

End write_more.

Section write_runs.
Import loggregator_v2 egress heap flushes fixtures more_fixtures.

Lemma write_hands_over_tagged_witness :
  let batch := [1%positive; 2%positive; 1%positive] in
  store_ok shared_store /\
  exists st1,
    addTags_all (tx0 false) batch shared_store = Some st1 /\
    exists m,
      deprecated_tags_at st1 1%positive = Some m /\
      dom (Tags shared1) ∪ dom (tags (tx0 false)) ⊆ dom m.
Proof.
  intros batch.
  assert (H1 : store_ok shared_store)
    by (apply (bool_decide_unpack _); vm_compute; exact I).
  split; [exact H1|].
  destruct (addTags_all (tx0 false) batch shared_store) as [st1|] eqn:Hall.
  - exists st1. split; [reflexivity|].
    apply (write_hands_over_tagged _ _ (tx0 false) batch shared_store st1 H1 Hall
             1%positive shared1); [|reflexivity].
    apply list_elem_of_here.
  - exfalso.
    assert (Hsome : is_Some (addTags_all (tx0 false) batch shared_store))
      by (eexists; reflexivity).
    rewrite Hall in Hsome. by destruct Hsome.
Defined.

Lemma uint64_uint64_add d a b :
  uint64 (uint64 (d + a) + b) = uint64 (d + (a + b)).
Proof. unfold uint64. rewrite Zplus_mod_idemp_l. f_equal. lia. Qed.

Lemma uint64_id d : uint64 (d + 0) = uint64 d.
Proof. by rewrite Z.add_0_r. Qed.

(** One call of [write] that returns counts the batch once. *)
Lemma write_counts {N W} `{Writer W} (t t1 : Transponder N W) batch st st1 :
  write t batch st = Some (t1, st1) ->
  let n := Z.of_nat (length batch) in
  tags t1 = tags t /\
  ((pulseemitter.delta (droppedMetric t1)
      = uint64 (pulseemitter.delta (droppedMetric t) + n) /\
    egressMetric t1 = egressMetric t) \/
   (pulseemitter.delta (egressMetric t1)
      = uint64 (pulseemitter.delta (egressMetric t) + n) /\
    droppedMetric t1 = droppedMetric t)).
Proof.
  unfold write. destruct (addTags_all t batch st) as [st'|]; [|done]. cbn.
  destruct (Write (writer t) batch st') as [[[err|] st2] w];
    intros [= <- <-]; cbn; (split; [done|]); [left|right];
    (split; [apply uint64_add_len|done]).
Qed.

(** X5.  Over any run of flushes that returns, every envelope handed to
    [write] is counted exactly once, as dropped or as egress: the two
    counters (which hold [uint64] values) grow, in [uint64] arithmetic,
    by two non-negative amounts that add up to the number of envelopes in
    the batches.  For counters that start at zero and fewer than 2^64
    envelopes, dropped plus egress is that number.  The static tags
    never change. *)
Theorem write_each_counts N W `{Writer W} (t t' : Transponder N W)
    batches st st' :
  0 <= pulseemitter.delta (droppedMetric t) < 2 ^ 64 ->
  0 <= pulseemitter.delta (egressMetric t) < 2 ^ 64 ->
  write_each t batches st = Some (t', st') ->
  tags t' = tags t /\
  (exists dropped egress,
      0 <= dropped /\ 0 <= egress /\
      dropped + egress = envelopes batches /\
      pulseemitter.delta (droppedMetric t')
        = uint64 (pulseemitter.delta (droppedMetric t) + dropped) /\
      pulseemitter.delta (egressMetric t')
        = uint64 (pulseemitter.delta (egressMetric t) + egress)) /\
  (pulseemitter.delta (droppedMetric t) = 0 ->
   pulseemitter.delta (egressMetric t) = 0 ->
   envelopes batches < 2 ^ 64 ->
   pulseemitter.delta (droppedMetric t')
     + pulseemitter.delta (egressMetric t') = envelopes batches).
Proof.
  intros HDr HEr Hrun.
  assert (Hmain : tags t' = tags t /\
    exists dropped egress,
      0 <= dropped /\ 0 <= egress /\
      dropped + egress = envelopes batches /\
      pulseemitter.delta (droppedMetric t')
        = uint64 (pulseemitter.delta (droppedMetric t) + dropped) /\
      pulseemitter.delta (egressMetric t')
        = uint64 (pulseemitter.delta (egressMetric t) + egress)).
  { assert (Hbound : forall z, 0 <= uint64 z < 2 ^ 64)
      by (intros z; apply Z.mod_pos_bound; lia).
    revert t st HDr HEr Hrun.
    induction batches as [|batch batches IH]; intros t st HDr HEr Hrun.
    { injection Hrun as <- <-. split; [done|]. exists 0, 0.
      rewrite !Z.add_0_r. unfold envelopes, uint64. cbn.
      rewrite !Z.mod_small by done. repeat split; lia. }
    cbn in Hrun.
    destruct (write t batch st) as [[t1 st1]|] eqn:Hw; [|done]. cbn in Hrun.
    destruct (write_counts t t1 batch st st1 Hw) as (Htags1 & Hcase).
    assert (Henv : envelopes (batch :: batches)
                   = Z.of_nat (length batch) + envelopes batches).
    { unfold envelopes. cbn. rewrite length_app. lia. }
    destruct Hcase as [[HD1 HE1]|[HE1 HD1]].
    - destruct (IH t1 st1) as (Htags & d & e & Hd & He & Hsum & HD & HE);
        [rewrite HD1; apply Hbound|by rewrite HE1|done|].
      split; [congruence|].
      exists (Z.of_nat (length batch) + d), e. rewrite Henv.
      repeat split; try lia.
      + by rewrite HD, HD1, uint64_uint64_add.
      + by rewrite HE, HE1.
    - destruct (IH t1 st1) as (Htags & d & e & Hd & He & Hsum & HD & HE);
        [by rewrite HD1|rewrite HE1; apply Hbound|done|].
      split; [congruence|].
      exists d, (Z.of_nat (length batch) + e). rewrite Henv.
      repeat split; try lia.
      + by rewrite HD, HD1.
      + by rewrite HE, HE1, uint64_uint64_add. }
  destruct Hmain as [Htags Hex]. split; [done|]. split; [done|].
  intros HD0 HE0 Hlt. destruct Hex as (d & e & Hd & He & Hsum & -> & ->).
  rewrite HD0, HE0. cbn. unfold uint64. rewrite !Z.mod_small by lia. done.
Qed.

End write_runs.

Section write_runs_witness.
Import loggregator_v2 egress heap flushes fixtures more_fixtures.

(** Three flushes through a writer that fails on the second. *)
Lemma write_each_counts_witness :
  let batches := [[1%positive; 2%positive]; [1%positive];
                  [2%positive; 2%positive; 1%positive]] in
  exists t' st',
    write_each flaky_tx batches store0 = Some (t', st') /\
    pulseemitter.delta (droppedMetric t')
      + pulseemitter.delta (egressMetric t') = 6.
Proof.
  intros batches.
  destruct (write_each flaky_tx batches store0) as [[t' st']|] eqn:Hrun.
  - exists t', st'. split; [reflexivity|].
    assert (Hzero : 0 <= 0 < 2 ^ 64) by lia.
    apply (proj2 (proj2 (write_each_counts _ _ flaky_tx t' batches store0 st'
                           Hzero Hzero Hrun))); reflexivity.
  - exfalso.
    assert (Hsome : is_Some (write_each flaky_tx batches store0))
      by (eexists; reflexivity).
    rewrite Hrun in Hsome. by destruct Hsome.
Defined.

End write_runs_witness.

(** ** The sender fetcher, continued *)

Section openStream_more.
Import clientpoolv2 transport_view servers.

(** X6.  Where the errors of [openStream] come from.  An error it
    returns is always the wrapped error of a call that opens a stream:
    of the first one, after which nothing else is called, or of the one
    made after the probe.  Whatever closing the probe returned is never
    returned.  No stream comes with an error. *)
Theorem openStream_error_source {H} (w : World H) (c : grpc.ClientConn) e :
  let open := CallBatchSender Ingress c in
  let probe := {| api := Ingress; conn := c; stream_id := length (calls w) |} in
  let w' := (openStream c w).2 in
  (openStream c w).1.2 = Some e ->
  (openStream c w).1.1 = None /\
  exists a before cause,
    calls w' = calls w ++ before ++ [CallBatchSender a c] /\
    transport w (calls w ++ before) (CallBatchSender a c) = Some cause /\
    e = establish_error cause /\
    match transport w (calls w) open with
    | Some _ => before = [] /\ a = Ingress
    | None => before = [open; CallCloseAndRecv probe]
    end.
Proof.
  intros open probe w'. subst w' open probe. rewrite openStream_run. cbv zeta.
  destruct (transport w (calls w) _) as [cause|] eqn:Hopen; cbn.
  - intros [= <-]. split; [done|]. exists Ingress, [], cause.
    rewrite app_nil_r. done.
  - destruct (transport w _ (CallCloseAndRecv _)) as [[[] ?|?]|]; cbn;
      match goal with
      | |- context [transport w ?h (CallBatchSender ?a c)] =>
          destruct (transport w h (CallBatchSender a c)) as [cause|] eqn:Hlast;
          cbn; [|done];
          intros [= <-]; (split; [done|]);
          eexists a, [_; _], cause;
          rewrite <- !app_assoc in Hlast; rewrite <- !app_assoc; done
      end.
Qed.

Lemma openStream_error_source_witness :
  let c := {| grpc.conn_id := 0; grpc.target := "10.0.0.1:8082" |} in
  let w := world0 no_streams in
  exists e,
    (openStream c w).1.2 = Some e /\
    (openStream c w).1.1 = None /\
    calls (openStream c w).2 = [CallBatchSender Ingress c].
Proof.
  intros c w. eexists. split; [reflexivity|].
  destruct (openStream_error_source w c _ eq_refl)
    as (Hnil & a & before & cause & Hcalls & _ & _ & Hfirst).
  split; [exact Hnil|]. cbn in Hfirst. destruct Hfirst as [-> ->].
  exact Hcalls.
Defined.

End openStream_more.

Section Fetch_more.
Import clientpoolv2 transport_view servers healthendpoint caller.

(** [openStream] when it returns an error. *)
Lemma openStream_failure {H} (w w' : World H) (c : grpc.ClientConn) s e :
  openStream c w = ((s, Some e), w') ->
  s = None /\
  exists a before cause,
    calls w' = calls w ++ before ++ [CallBatchSender a c] /\
    e = establish_error cause /\
    (before = [] \/
     before = [CallBatchSender Ingress c;
               CallCloseAndRecv {| api := Ingress; conn := c;
                                   stream_id := length (calls w) |}]).
Proof.
  rewrite openStream_run. cbv zeta.
  destruct (transport w (calls w) _) as [cause|]; cbn.
  - intros [= <- <- <-]. split; [done|]. exists Ingress, [], cause. eauto.
  - destruct (transport w _ (CallCloseAndRecv _)) as [[[] ?|?]|]; cbn;
      match goal with
      | |- context [transport w ?h (CallBatchSender ?a c)] =>
          destruct (transport w h (CallBatchSender a c)) as [cause|];
          cbn; [|done];
          intros [= <- <- <-]; (split; [done|]);
          eexists a, [_; _], cause;
          rewrite <- !app_assoc; eauto
      end.
Qed.

(** [openStream] when it returns no error. *)
Lemma openStream_success {H} (w w' : World H) (c : grpc.ClientConn) s :
  openStream c w = ((s, None), w') ->
  exists a,
    s = Some {| api := a; conn := c; stream_id := length (calls w) + 2 |} /\
    calls w' = calls w ++
      [CallBatchSender Ingress c;
       CallCloseAndRecv {| api := Ingress; conn := c;
                           stream_id := length (calls w) |};
       CallBatchSender a c] /\
    logs w' = logs w ++
      (if decide (a = DopplerIngress)
       then ["failed to open stream, falling back to deprecated API"]
       else []) /\
    health w' = health w /\ transport w' = transport w.
Proof.
  rewrite openStream_run. cbv zeta.
  destruct (transport w (calls w) _) as [cause|]; [done|].
  destruct (transport w _ (CallCloseAndRecv _)) as [[[] ?|?]|]; cbn;
    match goal with
    | |- context [transport w ?h (CallBatchSender ?a c)] =>
        destruct (transport w h (CallBatchSender a c)) as [cause|];
        cbn; [done|];
        intros [= <- <-]; exists a; cbn;
        rewrite <- !app_assoc, !length_app; cbn;
        rewrite <- ?Nat.add_assoc; done
    end.
Qed.

(** X7.  A [Fetch] that hands out a closer has made exactly four calls:
    the dial, the probe's open, the probe's close and the open of the
    stream it returns; it has not closed the connection.  The closer and
    the stream belong to the connection just dialed, there is no error,
    and the log has gained the fallback line if and only if the
    deprecated client was used, followed by the success line. *)
Theorem Fetch_success_shape {H} `{HealthRegistrar H}
    (p : SenderFetcher) (addr : string) (w w' : World H) d s err :
  Fetch p addr w = ((Some d, s, err), w') ->
  let c := {| grpc.conn_id := length (calls w); grpc.target := addr |} in
  let probe := {| api := Ingress; conn := c;
                  stream_id := length (calls w) + 1 |} in
  err = None /\
  closer d = c /\
  exists a,
    s = Some {| api := a; conn := c; stream_id := length (calls w) + 3 |} /\
    calls w' = calls w ++
      [CallDial addr (opts p); CallBatchSender Ingress c;
       CallCloseAndRecv probe; CallBatchSender a c] /\
    logs w' = logs w ++
      (if decide (a = DopplerIngress)
       then ["failed to open stream, falling back to deprecated API"]
       else []) ++
      ["successfully established a stream to doppler " +:+ addr].
Proof.
  intros HF c probe. rewrite Fetch_run in HF. cbv zeta in HF. fold c in HF.
  destruct (transport w (calls w) _) as [cause|]; [done|].
  destruct (openStream c _) as [[s1 [e1|]] w1] eqn:Hopen; [done|].
  injection HF as <- <- <- <-.
  apply openStream_success in Hopen as (a & -> & Hcalls & Hlogs & _ & _).
  cbn in Hcalls, Hlogs. rewrite length_app in Hcalls. cbn in Hcalls.
  split; [done|]. split; [done|]. exists a. cbn.
  rewrite length_app. cbn. rewrite <- Nat.add_assoc. cbn.
  split; [done|]. rewrite Hcalls, Hlogs, <- !app_assoc. done.
Qed.

Lemma Fetch_success_shape_witness :
  let c := {| grpc.conn_id := 0; grpc.target := "10.0.0.1:8082" |} in
  exists d s err w',
    Fetch fetcher0 "10.0.0.1:8082" (world0 legacy_only) = ((Some d, s, err), w') /\
    closer d = c /\
    s = Some {| api := DopplerIngress; conn := c; stream_id := 3 |} /\
    logs w' = ["failed to open stream, falling back to deprecated API";
               "successfully established a stream to doppler 10.0.0.1:8082"].
Proof.
  intros c.
  destruct (Fetch fetcher0 "10.0.0.1:8082" (world0 legacy_only))
    as [[[d s] err] w'] eqn:HF.
  assert (Hd : is_Some d).
  { replace d with (Fetch fetcher0 "10.0.0.1:8082" (world0 legacy_only)).1.1.1
      by (by rewrite HF).
    eexists. lazy. reflexivity. }
  destruct Hd as [d' ->].
  assert (Ha : exists a, s = Some {| api := a; conn := c; stream_id := 3 |}
                         /\ a = DopplerIngress).
  { replace s with (Fetch fetcher0 "10.0.0.1:8082" (world0 legacy_only)).1.1.2
      by (by rewrite HF).
    eexists. split; lazy; reflexivity. }
  destruct (Fetch_success_shape fetcher0 "10.0.0.1:8082" (world0 legacy_only)
              w' d' s err HF) as (-> & Hc & a & Hs & Hcalls & Hlogs).
  destruct Ha as (a' & Hs' & ->). rewrite Hs in Hs'. injection Hs' as ->.
  exists d', s, None, w'. split; [reflexivity|]. split; [exact Hc|].
  split; [exact Hs|]. exact Hlogs.
Defined.


(** X8.  An error of [Fetch] never carries a gRPC status, whatever the
    error underneath was: it is a plain error whose text starts with the
    dial or the stream message and ends with the text of the cause, so
    [status.FromError] on it answers [Unknown] and not ok.  It always
    comes with a nil closer and a nil stream. *)
Theorem Fetch_error_is_plain {H} `{HealthRegistrar H}
    (p : SenderFetcher) (addr : string) (w : World H) e :
  (Fetch p addr w).1.2 = Some e ->
  (Fetch p addr w).1.1 = (None, None) /\
  grpc.status_FromError (Some e) = (codes.Unknown, false) /\
  exists cause,
    e = ErrorString ("error dialing ingestor stream to " +:+ addr
                     +:+ ": " +:+ Error cause) \/
    e = ErrorString ("error establishing ingestor stream to: " +:+ Error cause).
Proof.
  rewrite Fetch_run. cbv zeta.
  destruct (transport w (calls w) _) as [cause|]; cbn.
  - intros [= <-]. split; [done|]. split; [done|]. eauto.
  - match goal with
    | |- context [openStream ?c ?w1] =>
        pose proof (fun w' s e => openStream_failure w1 w' c s e) as Hsrc;
        destruct (openStream c w1) as [[s1 [e1|]] w2]
    end; cbn; [|done].
    intros [= <-].
    destruct (Hsrc w2 s1 e1 eq_refl) as (_ & a & before & cause & _ & -> & _).
    split; [done|]. split; [done|]. exists cause. by right.
Qed.

Lemma Fetch_error_is_plain_witness :
  exists e,
    (Fetch fetcher0 "10.0.0.1:8082" (world0 no_streams)).1.2 = Some e /\
    e = ErrorString
          "error establishing ingestor stream to: rpc error: code = Unavailable desc = connection refused" /\
    grpc.status_FromError (Some e) = (codes.Unknown, false).
Proof.
  eexists. split; [lazy; reflexivity|]. split; [reflexivity|].
  exact (proj1 (proj2 (Fetch_error_is_plain fetcher0 "10.0.0.1:8082"
                         (world0 no_streams) _ eq_refl))).
Defined.

(** X9.  What [Fetch] does on the transport, whatever the outcome.  It
    dials first; every later call is on the connection just dialed and
    none of them sends anything.  It closes that connection exactly when
    the dial succeeded and no closer is handed out, and then closing is
    the last thing it does and is done once; when it hands out a closer
    it has not closed the connection. *)
Theorem Fetch_closes_or_hands_out {H} `{HealthRegistrar H}
    (p : SenderFetcher) (addr : string) (w : World H) :
  let c := {| grpc.conn_id := length (calls w); grpc.target := addr |} in
  let dial := CallDial addr (opts p) in
  let '((d, s, err), w') := Fetch p addr w in
  exists rest,
    calls w' = calls w ++ dial :: rest /\
    Forall (fun call => call_conn call = Some c /\ is_send call = false) rest /\
    match d with
    | Some _ => CallConnClose c ∉ rest
    | None =>
        match transport w (calls w) dial with
        | Some _ => rest = []
        | None =>
            exists before,
              rest = before ++ [CallConnClose c] /\
              CallConnClose c ∉ before
        end
    end.
Proof.
  intros c dial. rewrite Fetch_run. cbv zeta. fold c dial.
  destruct (transport w (calls w) dial) as [cause|].
  { exists []. split; [done|]. split; [constructor|done]. }
  match goal with
  | |- context [openStream c ?w1] =>
      pose proof (fun w' s e => openStream_failure w1 w' c s e) as Hsrc;
      pose proof (fun w' s => openStream_success w1 w' c s) as Hok;
      destruct (openStream c w1) as [[s1 [e1|]] w2]
  end.
  - destruct (Hsrc w2 s1 e1 eq_refl)
      as (_ & a & before & cause & Hcalls & _ & Hshape).
    cbn in Hcalls, Hshape.
    exists ((before ++ [CallBatchSender a c]) ++ [CallConnClose c]).
    split; [cbn [calls]; by rewrite Hcalls, <- !app_assoc|].
    split.
    + destruct Hshape as [-> | ->]; repeat constructor.
    + exists (before ++ [CallBatchSender a c]). split; [done|].
      destruct Hshape as [-> | ->]; cbn; intros Hin;
        repeat (apply elem_of_cons in Hin as [Hin|Hin]; [discriminate|]);
        by apply elem_of_nil in Hin.
  - destruct (Hok w2 s1 eq_refl) as (a & _ & Hcalls & _).
    cbn in Hcalls. cbn [calls]. rewrite Hcalls, <- app_assoc. cbn.
    eexists. split; [reflexivity|]. split.
    + repeat constructor.
    + intros Hin.
      repeat (apply elem_of_cons in Hin as [Hin|Hin]; [discriminate|]).
      by apply elem_of_nil in Hin.
Qed.

End Fetch_more.

Section Close_more.
Import clientpoolv2 transport_view servers healthendpoint caller.
Implicit Types (w : World Registrar).

Lemma Close_times_moves n (d : decrementingCloser) w :
  moved w (Close_times n d w).2 (- Z.of_nat n) /\
  calls (Close_times n d w).2
    = calls w ++ replicate n (CallConnClose (closer d)).
Proof.
  revert w. induction n as [|n IH]; intros w.
  { cbn. rewrite app_nil_r. unfold moved. split; [lia|done]. }
  cbn [Close_times]. unfold mbind, M_bind.
  pose proof (Close_moves d w) as [HC1 HC2]. rewrite Close_run in *.
  cbn [snd] in *.
  match goal with
  | |- context [Close_times n d ?w1] => destruct (IH w1) as [[H1 H2] Hcalls]
  end.
  split.
  - split; [rewrite H1, HC1|rewrite H2, HC2]; lia.
  - rewrite Hcalls. cbn. by rewrite <- app_assoc.
Qed.

(** X10.  [Close] is not guarded against being called again.  Each call
    lowers both counters by one and closes the connection once more, so
    [n] calls on the same closer lower them by [n]; a fetch followed by
    two closes of its closer leaves both counters one below where they
    started. *)
Theorem Close_is_not_guarded (p : SenderFetcher) :
  (forall n d w,
      moved w (Close_times n d w).2 (- Z.of_nat n) /\
      calls (Close_times n d w).2
        = calls w ++ replicate n (CallConnClose (closer d))) /\
  (forall addr w d s err w1,
      Fetch p addr w = ((Some d, s, err), w1) ->
      moved w (Close_times 2 d w1).2 (-1)).
Proof.
  split; [apply Close_times_moves|].
  intros addr w d s err w1 HF.
  pose proof (Fetch_moves p addr w) as Hm. cbv zeta in Hm. rewrite HF in Hm.
  destruct Hm as (_ & _ & _ & _ & [H1 H2]).
  destruct (Close_times_moves 2 d w1) as [[H3 H4] _].
  split; [rewrite H3, H1|rewrite H4, H2]; lia.
Qed.

Lemma Close_is_not_guarded_witness :
  exists d s err w1,
    Fetch fetcher0 "10.0.0.1:8082" (world0 current) = ((Some d, s, err), w1) /\
    value "dopplerConnections" (health (Close_times 2 d w1).2) = 1 /\
    value "dopplerV2Streams" (health (Close_times 2 d w1).2) = 1.
Proof.
  destruct (Fetch fetcher0 "10.0.0.1:8082" (world0 current))
    as [[[d s] err] w1] eqn:HF.
  assert (Hd : is_Some d).
  { replace d with (Fetch fetcher0 "10.0.0.1:8082" (world0 current)).1.1.1
      by (by rewrite HF).
    eexists. lazy. reflexivity. }
  destruct Hd as [d' ->]. exists d', s, err, w1. split; [reflexivity|].
  exact (proj2 (Close_is_not_guarded fetcher0) _ _ _ _ _ _ HF).
Defined.

End Close_more.

(** ** The pool and the application, continued *)

Section pool_more.
Import app app_fixtures.
Context {R : Type} `{rand.Source R}.

(** X12.  The lookup chosen at construction reaches the balancers.  For
    an application built with any list of [WithV2Lookup] options, the
    last option wins (the default resolver when there is none), the
    configuration and the credentials are as given, and every balancer of
    every manager of the pool resolves through that lookup. *)
Theorem lookup_option_reaches_balancers (net_LookupIP : Lookup) (c : Config)
    creds sc (ls : list Lookup) (r : R) :
  let a := NewV2App net_LookupIP c (Some creds) sc (WithV2Lookup <$> ls) in
  let chosen := default net_LookupIP (last ls) in
  config a = c /\ clientCreds a = Some creds /\ serverCreds a = sc /\
  lookup a = chosen /\
  exists pool r',
    initializePool a r = (Ok pool, r') /\
    forall m b,
      m ∈ conns pool -> b ∈ balancers (connector m) ->
      balancer_lookup b = chosen.
Proof.
  intros a chosen.
  assert (Ha : a = {| config := c; clientCreds := Some creds;
                      serverCreds := sc; lookup := chosen |}).
  { subst a chosen. unfold NewV2App.
    generalize net_LookupIP. induction ls as [|l ls' IH]; intros lk; [done|].
    cbn [fmap list_fmap foldl]. etrans; [apply (IH l)|].
    f_equal. clear IH. destruct ls' as [|l0 ls'']; [reflexivity|].
    change (last (l :: l0 :: ls'')) with (last (l0 :: ls'')).
    destruct (last (l0 :: ls'')) eqn:Hlast; [reflexivity|].
    by apply last_None in Hlast. }
  assert (Hcfg : config a = c) by (by rewrite Ha).
  assert (Hcc : clientCreds a = Some creds) by (by rewrite Ha).
  assert (Hsc : serverCreds a = sc) by (by rewrite Ha).
  assert (Hlk : lookup a = chosen) by (by rewrite Ha).
  repeat (split; [done|]).
  destruct (initializePool_spec a r creds Hcc) as (cn & r' & -> & Hb).
  eexists _, _. split; [reflexivity|].
  intros m b [v [-> _]]%list_elem_of_fmap. cbn. rewrite Hb, Hlk.
  case_bool_decide; cbn; intros Hin;
    repeat (apply elem_of_cons in Hin as [->|Hin]; [done|]);
    by apply elem_of_nil in Hin.
Qed.

End pool_more.

Section start_more.
Import app app_fixtures app_start.
Context {R N W : Type} `{rand.Source R}.
Variable NewManyToOneEnvelopeV2 : Z -> AlertFunc -> N.
Variable NewCounterAggregator : ClientPool -> W.

(** X14.  The static tags of the running agent are the tags of its
    configuration.  For the transponder that [Start] sets up (batch size
    100, batch interval 100 ms, the two counters at zero), tagging an
    envelope gives it, at every key: the text of its structured tag, else
    its old deprecated tag, else the text of the configuration's tag. *)
Theorem Start_tags_from_config (a : AppV2) (r r' : R) started :
  Start NewManyToOneEnvelopeV2 NewCounterAggregator a r = (Ok started, r') ->
  egress.batchSize (tx started) = 100 /\
  egress.batchInterval (tx started) = 100000000 /\
  pulseemitter.delta (egress.droppedMetric (tx started)) = 0 /\
  pulseemitter.delta (egress.egressMetric (tx started)) = 0 /\
  forall st l e,
    envs st !! l = Some e ->
    heap.allocated st e ->
    exists st' m,
      egress.addTags (tx started) l st = Some st' /\
      heap.deprecated_tags_at st' l = Some m /\
      heap.normalized (loggregator_v2.Tags e) (Tags (config a))
        (heap.deprecated_tags st e) m.
Proof.
  unfold Start. destruct (serverCreds a); [|done].
  destruct (initializePool a r) as [[pool|msg] r1]; [|done].
  intros [= <- _]. cbn [tx]. repeat (split; [reflexivity|]).
  intros st l e Hl Halloc.
  destruct (addTags_spec
              (egress.NewTransponder (NewManyToOneEnvelopeV2 10000 alert)
                 (NewCounterAggregator pool) (Tags (config a)) 100
                 (100 * time.Millisecond)) st l e Hl Halloc)
    as (m & _ & ->).
  eexists _, _. split; [reflexivity|]. split.
  - unfold heap.deprecated_tags_at. cbn. rewrite lookup_insert_eq. cbn.
    by rewrite lookup_insert_eq.
  - apply normalized_union.
Qed.

End start_more.

Section start_witness.
Import app app_fixtures app_start fixtures.

(** An agent whose configuration carries tags, started with the
    fixtures' buffer and writer. *)
Lemma Start_tags_from_config_witness :
  let a := {| config := {| RouterAddr := "doppler:8082"; RouterAddrWithAZ := "";
                           Tags := static_tags; GRPC_ := {| Port := 3458 |} |};
              clientCreds := Some (grpc.TLS "agent");
              serverCreds := Some (grpc.TLS "agent");
              lookup := no_lookup |} in
  let start :=
    Start (R := Z) (fun _ _ => [Some 1%positive])
      (fun _ => {| failing := false; received := [] |}) in
  exists started r',
    start a 42 = (Ok started, r') /\
    agentAddress started = "127.0.0.1:3458" /\
    exists st' m,
      egress.addTags (tx started) 1%positive store0 = Some st' /\
      heap.deprecated_tags_at st' 1%positive = Some m /\
      heap.normalized (loggregator_v2.Tags env1) static_tags
        (heap.deprecated_tags store0 env1) m.
Proof.
  intros a start.
  destruct (initializePool_spec (R := Z) a 42 (grpc.TLS "agent") eq_refl)
    as (cn & r1 & HP & _).
  assert (HS : exists started,
             start a 42 = (Ok started, r1) /\
             agentAddress started = "127.0.0.1:" +:+ pretty 3458).
  { unfold start, Start. change (serverCreds a) with (Some (grpc.TLS "agent")).
    cbv beta iota. rewrite HP. eexists. split; reflexivity. }
  destruct HS as (started & HS & Haddr).
  exists started, r1. split; [exact HS|].
  split; [rewrite Haddr; vm_compute; reflexivity|].
  exact (proj2 (proj2 (proj2 (proj2
           (Start_tags_from_config _ _ a 42 r1 started HS))))
           store0 1%positive env1 eq_refl I).
Defined.

End start_witness.

(** ** The consumer loop, continued *)

Section loop_more.
Import loggregator_v2 egress heap fixtures.

Lemma poll_trace_sleep evs :
  poll_trace evs ->
  forall i d,
    evs !! i = Some (EvSleep d) ->
    d = 100 * time.Millisecond /\
    exists j, i = S j /\ evs !! j = Some EvFlush.
Proof.
  induction 1 as [|evs _ IH|envelope evs _ IH]; intros i d Hi.
  - by rewrite lookup_nil in Hi.
  - destruct i as [|[|i]]; cbn in Hi.
    + discriminate Hi.
    + injection Hi as <-. split; [done|]. by exists 0%nat.
    + destruct (IH i d Hi) as (-> & j & -> & Hj).
      split; [done|]. by exists (S (S j)).
  - destruct i as [|i]; cbn in Hi; [discriminate Hi|].
    destruct (IH i d Hi) as (-> & j & -> & Hj).
    split; [done|]. by exists (S j).
Qed.

(** X15.  The loop sleeps only right after a flush, and always for
    100 ms.  After any number of iterations of [Start] that the batcher
    lets return, the events are a sequence of blocks, one per poll; so
    every sleep among them lasts 100000000 ns and is immediately preceded
    by a flush. *)
Theorem Start_sleeps_only_after_flush {N W B} `{Nexter N} `{Writer W}
    `{Batcher B (Transponder N W * Store) Event}
    (k : nat) (t : Transponder N W) (st : Store) (s' : Loop N W B) :
  Start k t st = Some s' ->
  poll_trace (events s') /\
  forall i d,
    events s' !! i = Some (EvSleep d) ->
    d = 100000000 /\
    exists j, i = S j /\ events s' !! j = Some EvFlush.
Proof.
  unfold Start. intros Hrun.
  destruct (Start_iterations_trace k _ s' Hrun) as (evs & Hevs & Htrace).
  cbn in Hevs. rewrite Hevs. split; [done|].
  intros i d Hi. by apply poll_trace_sleep.
Qed.

Lemma Start_sleeps_only_after_flush_witness :
  exists s' : Loop (list (option loc)) recorder pending,
    Start 3 (tx0 false) store0 = Some s' /\
    poll_trace (events s') /\
    forall i d,
      events s' !! i = Some (EvSleep d) ->
      d = 100000000 /\
      exists j, i = S j /\ events s' !! j = Some EvFlush.
Proof.
  destruct (Start (B := pending) 3 (tx0 false) store0) as [s'|] eqn:Hrun.
  - exists s'. split; [reflexivity|].
    exact (Start_sleeps_only_after_flush 3 (tx0 false) store0 s' Hrun).
  - exfalso.
    assert (Hs : is_Some (Start (B := pending) 3 (tx0 false) store0))
      by (eexists; reflexivity).
    rewrite Hrun in Hs. by destruct Hs.
Defined.

End loop_more.
